(** * ImTuiImpl: a shallow embedding of DFHack's ImTui bridge

    The development follows [library/modules/ImTuiImpl.cpp]: the scan
    converter ([ScanLine], [drawTriangle]), the input translator
    ([cleanup_keys], [new_frame]), the draw-command interpreter
    ([draw_frame]), the session state ([activate], [deactivate], [feed],
    the feed flags and the suppressed keys), the layers of a render pass
    ([on_render_start], [on_render_end], [on_feed_start], [on_feed_end]),
    the window reconciler ([imgui_rearrange_internals]) and the colour
    mapper ([name_to_colour_index], [colour_interop], [named_colours]).

    Conventions.
    - A C++ [int] is a [Z]; the counters and coordinates of this file stay
      far from the ends of the 32-bit range, where C++ leaves the result of
      signed arithmetic undefined, so no wrap-around is written.
    - A [float] is the rational it denotes ([Q]); [std::floor] is [Qfloor].
      Rounding of float arithmetic is not modelled.
    - [std::set] is [gset], [std::map] is [gmap]; a [std::vector] is a list.
    - An access out of the range of a vector is a fault of the [res] monad,
      as is a loop that outruns its fuel. *)

From Stdlib Require Import ZArith QArith Qround Qminmax Qabs Ascii String.
From stdpp Require Import gmap list.

Local Open Scope Z_scope.

(** ** Geometry and the host display *)

Record ImVec2 := mkVec2 { vx : Q; vy : Q }.
Record ImVec4 := mkVec4 { v4x : Q; v4y : Q; v4z : Q; v4w : Q }.

(** [df::coord2d]. *)
Record coord2d := mkCoord { cx : Z; cy : Z }.

(** [Screen::Pen], restricted to the fields this file sets: the glyph and
    the two colours. *)
Record Pen := mkPen { ch : ascii; fg : Z; bg : Z }.

#[global] Instance Pen_eq_dec : EqDecision Pen.
Proof. solve_decision. Defined.

(** Modelled from the spec: the host display ([Screen], whose code is not in
    this file's translation unit): a grid of [dim] cells read with
    [readTile] and written with [paintTile]; both ignore a cell outside the
    grid. *)
Record Screen := mkScreen { dim : coord2d; tiles : gmap (Z * Z) Pen }.

Definition getWindowSize (s : Screen) : coord2d := dim s.

Definition on_screen (d : coord2d) (x y : Z) : bool :=
  (0 <=? x) && (x <? cx d) && (0 <=? y) && (y <? cy d).

Definition blank_pen : Pen := mkPen "000"%char 0 0.

Definition readTile (x y : Z) (s : Screen) : Pen :=
  if on_screen (dim s) x y then default blank_pen (tiles s !! (x, y))
  else blank_pen.

Definition paintTile (pen : Pen) (x y : Z) (s : Screen) : Screen :=
  if on_screen (dim s) x y
  then mkScreen (dim s) (<[(x, y) := pen]> (tiles s))
  else s.

(** [Screen::paintString(pen, x, y, " ")]: one cell, the pen's colours, the
    glyph of the one-character text. *)
Definition paintString_space (pen : Pen) (x y : Z) (s : Screen) : Screen :=
  paintTile (mkPen " "%char (fg pen) (bg pen)) x y s.

(** Conversion of a float to an integer type truncates towards zero. *)
Definition Qtrunc (q : Q) : Z :=
  if Qle_bool 0 q then Qfloor q else Qceiling q.

(** ** Faults *)

Inductive fault := OutOfRange | OutOfFuel.

Inductive res (A : Type) : Type :=
| Ok (a : A)
| Fault (f : fault).
Arguments Ok {A} a.
Arguments Fault {A} f.

Definition res_bind {A B} (r : res A) (k : A -> res B) : res B :=
  match r with
  | Ok a => k a
  | Fault f => Fault f
  end.

Notation "x <-- r ;; k" := (res_bind r (fun x => k))
  (at level 100, r at next level, right associativity).

(** [v[i]] on an [ImVector] or a [std::vector], with a natural index. *)
Definition at_index {A} (v : list A) (i : nat) : res A :=
  match v !! i with
  | Some a => Ok a
  | None => Fault OutOfRange
  end.

Definition res_foldl {A B} (f : A -> B -> res A) : A -> list B -> res A :=
  fix go (a : A) (l : list B) : res A :=
    match l with
    | [] => Ok a
    | b :: l' => a' <-- f a b ;; go a' l'
    end.

(** ** Scan-convert rasterizer *)

(** [#define ABS(x) ((x >= 0) ? x : -x)] *)
Definition ABS (x : Z) : Z := if 0 <=? x then x else - x.

Definition sgn (s : Z) : Z := if 0 <? s then 1 else if s <? 0 then -1 else 0.

(** [xrange[i]] and [xrange[i] = v] on the scratch vector, with the [int]
    index the source computes; an index outside the vector is a fault. *)
Definition xr_get (xrange : list Z) (i : Z) : res Z :=
  if i <? 0 then Fault OutOfRange else at_index xrange (Z.to_nat i).

Definition xr_set (xrange : list Z) (i v : Z) : res (list Z) :=
  if (0 <=? i) && (i <? Z.of_nat (length xrange))
  then Ok (<[Z.to_nat i := v]> xrange)
  else Fault OutOfRange.

(** The two guarded updates at the head of the loop of [ScanLine]. *)
Definition widen_row (ymax x y : Z) (xrange : list Z) : res (list Z) :=
  if (0 <=? y) && (y <? ymax) then
    lo <-- xr_get xrange (2 * y + 0) ;;
    xr0 <-- (if x <? lo then xr_set xrange (2 * y + 0) x else Ok xrange) ;;
    hi <-- xr_get xr0 (2 * y + 1) ;;
    if hi <? x then xr_set xr0 (2 * y + 1) x else Ok xr0
  else Ok xrange.

(** [while (cnt--)] in [ScanLine]. *)
Fixpoint ScanLine_loop (cnt : nat) (m n dx1 dy1 dx2 dy2 ymax : Z)
    (x y k : Z) (xrange : list Z) : res (list Z) :=
  match cnt with
  | O => Ok xrange
  | S cnt' =>
    xrange1 <-- widen_row ymax x y xrange ;;
    let k := k + n in
    if k <? m
    then ScanLine_loop cnt' m n dx1 dy1 dx2 dy2 ymax
           (x + dx2) (y + dy2) k xrange1
    else ScanLine_loop cnt' m n dx1 dy1 dx2 dy2 ymax
           (x + dx1) (y + dy1) (k - m) xrange1
  end.

Definition ScanLine (x1 y1 x2 y2 ymax : Z) (xrange : list Z) : res (list Z) :=
  let sx := x2 - x1 in
  let sy := y2 - y1 in
  let dx1 := sgn sx in
  let dy1 := sgn sy in
  let m := ABS sx in
  let n := ABS sy in
  let '(m, n, dx2, dy2) :=
    if m <? n then (ABS sy, ABS sx, 0, dy1) else (m, n, dx1, 0) in
  ScanLine_loop (Z.to_nat (m + 1)) m n dx1 dy1 dx2 dy2 ymax
    x1 y1 (n / 2) xrange.

(** [g_xrange.resize(2*ydelta)] on the empty vector, followed by the loop
    that stores the two sentinels of every row. *)
Definition init_xrange (ydelta : Z) : res (list Z) :=
  res_foldl (fun g y =>
               g0 <-- xr_set g (2 * y + 0) 999999 ;;
               xr_set g0 (2 * y + 1) (-999999))
            (replicate (Z.to_nat (2 * ydelta)) 0)
            (seqZ 0 ydelta).

(** The cells the inner [while (len--)] visits on row [y]: [len] cells from
    [xrange[2y]] on, when the row's interval is not empty. *)
Definition row_candidates (xrange : list Z) (ymin y : Z) : res (list (Z * Z)) :=
  hi <-- xr_get xrange (2 * y + 1) ;;
  lo <-- xr_get xrange (2 * y + 0) ;;
  if lo <=? hi
  then Ok ((fun j => (lo + j, y + ymin)) <$> seqZ 0 (1 + hi - lo))
  else Ok [].

Record tri_scan := mkScan { scan_ymin : Z; scan_ydelta : Z; scan_xrange : list Z }.

(** [drawTriangle] up to the three [ScanLine] calls. *)
Definition scan_triangle (p0 p1 p2 : ImVec2) : res tri_scan :=
  let ymin := Qfloor (Qmin (Qmin (vy p0) (vy p1)) (vy p2)) in
  let ymax := Qfloor (Qmax (Qmax (vy p0) (vy p1)) (vy p2)) in
  let ydelta := ymax - ymin + 1 in
  g <-- init_xrange ydelta ;;
  let x0 := Qfloor (vx p0) in let x1 := Qfloor (vx p1) in
  let x2 := Qfloor (vx p2) in
  let y0 := Qfloor (vy p0) in let y1 := Qfloor (vy p1) in
  let y2 := Qfloor (vy p2) in
  g <-- ScanLine x0 (y0 - ymin) x1 (y1 - ymin) ydelta g ;;
  g <-- ScanLine x1 (y1 - ymin) x2 (y2 - ymin) ydelta g ;;
  g <-- ScanLine x2 (y2 - ymin) x0 (y0 - ymin) ydelta g ;;
  Ok (mkScan ymin ydelta g).

(** Every cell the final double loop of [drawTriangle] reaches, in order. *)
Definition triangle_candidates (p0 p1 p2 : ImVec2) : res (list (Z * Z)) :=
  sc <-- scan_triangle p0 p1 p2 ;;
  res_foldl (fun cells y =>
               row <-- row_candidates (scan_xrange sc) (scan_ymin sc) y ;;
               Ok (cells ++ row))
            [] (seqZ 0 (scan_ydelta sc)).

(** The cells for which [drawTriangle] calls [Screen::paintString]: the
    candidates that pass the test
    [x >= 0 && x < dim.x && y + ymin >= 0 && y + ymin < dim.y]. *)
Definition drawTriangle_cells (d : coord2d) (p0 p1 p2 : ImVec2)
    : res (list (Z * Z)) :=
  cand <-- triangle_candidates p0 p1 p2 ;;
  Ok (filter (fun c => on_screen d c.1 c.2 = true) cand).

(** The cell [(x, y)] of the scan's own rows lies in the interval the
    scratch vector holds for row [y]. *)
Definition row_covers (xrange : list Z) (x y : Z) : Prop :=
  ∃ lo hi, xr_get xrange (2 * y + 0) = Ok lo ∧ xr_get xrange (2 * y + 1) = Ok hi
           ∧ lo ≤ x ≤ hi.

(** Every row of the scratch vector is as the sentinels left it, seen from
    the columns [xmin .. xmax], or holds an interval within them. *)
Definition rows_within (xmin xmax : Z) (xrange : list Z) : Prop :=
  ∀ y lo hi,
    xr_get xrange (2 * y + 0) = Ok lo → xr_get xrange (2 * y + 1) = Ok hi →
    (xmax ≤ lo ∧ hi ≤ xmin) ∨ (xmin ≤ lo ∧ lo ≤ hi ∧ hi ≤ xmax).

(** Two updates of a scratch vector of [2 * ymax] entries can be made in
    either order. *)
Definition commute_on (ymax : Z) (F G : list Z → res (list Z)) : Prop :=
  ∀ xr a b,
    Z.of_nat (length xr) = 2 * ymax → F xr = Ok a → G a = Ok b →
    ∃ a', G xr = Ok a' ∧ F a' = Ok b.

Section Colours.
(** [ImGui::ColorConvertU32ToFloat4], a function of the GUI library. *)
Variable ColorConvertU32ToFloat4 : Z -> ImVec4.

(** [const Screen::Pen pen(0, col4.x, col4.y)] *)
Definition fill_pen (col : Z) : Pen :=
  let col4 := ColorConvertU32ToFloat4 col in
  mkPen "000"%char (Qtrunc (v4x col4)) (Qtrunc (v4y col4)).

Definition paint_cells (pen : Pen) (cells : list (Z * Z)) (s : Screen) : Screen :=
  foldl (fun s c => paintString_space pen c.1 c.2 s) s cells.

Definition drawTriangle (p0 p1 p2 : ImVec2) (col : Z) (s : Screen) : res Screen :=
  cells <-- drawTriangle_cells (getWindowSize s) p0 p1 p2 ;;
  Ok (paint_cells (fill_pen col) cells s).
End Colours.

(** ** Input translator *)

Section InputTranslator.
(** [df::interface_key], the host's closed vocabulary of key events, and
    the members of it that [cleanup_keys] names. [charToKey] is
    [Screen::charToKey]. *)
Context `{Countable interface_key}.
Variables CURSOR_LEFT CURSOR_RIGHT CURSOR_UP CURSOR_DOWN : interface_key.
Variable charToKey : ascii -> interface_key.

Definition to_kill_if_seen : gmap interface_key (list interface_key) :=
  <[charToKey "2" := [CURSOR_DOWN]]>
    (<[charToKey "8" := [CURSOR_UP]]>
       (<[charToKey "6" := [CURSOR_RIGHT]]>
          (<[charToKey "4" := [CURSOR_LEFT]]> ∅))).

(** [for (c : v) keys.erase(c);] *)
Definition erase_all (v : list interface_key) (keys : gset interface_key)
    : gset interface_key :=
  foldl (fun ks c => ks ∖ {[c]}) keys v.

(** One turn of the first loop: the trigger is looked up in the key set as
    it is at that turn. *)
Definition kill_if_seen (trigger : interface_key) (v : list interface_key)
    (acc : gset interface_key * gmap interface_key Z)
    : gset interface_key * gmap interface_key Z :=
  if decide (trigger ∈ acc.1)
  then (erase_all v acc.1, <[trigger := 0]> acc.2)
  else acc.

Definition max_suppress_frames : Z := 10.

(** One turn of the second loop; [to_kill_if_seen[k]] of a key without an
    entry is the empty vector. *)
Definition kill_if_recent (k : interface_key) (t : Z)
    (keys : gset interface_key) : gset interface_key :=
  if t <=? max_suppress_frames
  then erase_all (to_kill_if_seen !!! k) keys
  else keys.

(** [cleanup_keys(keys, danger_key_time)]: the returned set and the timer
    table, which the source updates through the reference. Each loop is a
    fold over its map; [cleanup_keys_order_irrelevant] below shows that the
    order of the visits does not change the result. *)
Definition cleanup_keys (keys : gset interface_key)
    (danger_key_time : gmap interface_key Z)
    : gset interface_key * gmap interface_key Z :=
  let acc := map_fold kill_if_seen (keys, danger_key_time) to_kill_if_seen in
  (map_fold kill_if_recent acc.1 acc.2, acc.2).

(** [cleanup_keys] with the order of the visits made explicit. A
    [std::map] is visited by increasing key; the order of [interface_key] is
    left open here, so the visits are any listing of the entries: [visit1]
    lists those of [to_kill_if_seen], [visit2] those of a timer table. *)
Definition cleanup_keys_in_order
    (visit1 : list (interface_key * list interface_key))
    (visit2 : gmap interface_key Z -> list (interface_key * Z))
    (keys : gset interface_key) (danger_key_time : gmap interface_key Z)
    : gset interface_key * gmap interface_key Z :=
  let acc :=
    foldl (fun acc kv => kill_if_seen kv.1 kv.2 acc) (keys, danger_key_time)
          visit1 in
  (foldl (fun ks kt => kill_if_recent kt.1 kt.2 ks) acc.1 (visit2 acc.2), acc.2).

(** The part of [ImGuiIO] that [new_frame] fills from the keys and the
    mouse snapshot. *)
Record ImGuiIO := mkIO {
  KeysDown : gset interface_key;
  MouseDown0 : bool;
  MouseDown1 : bool }.

(** [ImTuiInterop::ui_state]. Contexts are handles; [None] is [nullptr]. *)
Record ui_state := mkState {
  ctx : option nat;
  last_context : option nat;
  windows : gmap Z (list string);
  rendered_windows : gset string;
  render_stack : Z;
  suppressed_keys : gmap Z (gset interface_key);
  suppress_next_keyboard_passthrough : bool;
  should_pass_keyboard_up : bool;
  pressed_mouse_keys : bool * bool;
  unprocessed_keys : gset interface_key;
  danger_key_frames : gmap interface_key Z }.

Definition set_danger (d : gmap interface_key Z) (st : ui_state) : ui_state :=
  mkState (ctx st) (last_context st) (windows st) (rendered_windows st)
    (render_stack st) (suppressed_keys st)
    (suppress_next_keyboard_passthrough st) (should_pass_keyboard_up st)
    (pressed_mouse_keys st) (unprocessed_keys st) d.

Definition set_pressed_mouse (p : bool * bool) (st : ui_state) : ui_state :=
  mkState (ctx st) (last_context st) (windows st) (rendered_windows st)
    (render_stack st) (suppressed_keys st)
    (suppress_next_keyboard_passthrough st) (should_pass_keyboard_up st)
    p (unprocessed_keys st) (danger_key_frames st).

Definition set_flags (suppress pass_up : bool) (st : ui_state) : ui_state :=
  mkState (ctx st) (last_context st) (windows st) (rendered_windows st)
    (render_stack st) (suppressed_keys st) suppress pass_up
    (pressed_mouse_keys st) (unprocessed_keys st) (danger_key_frames st).

Definition set_last_context (c : option nat) (st : ui_state) : ui_state :=
  mkState (ctx st) c (windows st) (rendered_windows st)
    (render_stack st) (suppressed_keys st)
    (suppress_next_keyboard_passthrough st) (should_pass_keyboard_up st)
    (pressed_mouse_keys st) (unprocessed_keys st) (danger_key_frames st).

(** [for (auto& it : st.danger_key_frames) it.second++;] *)
Definition age_timers (d : gmap interface_key Z) : gmap interface_key Z :=
  (fun t => t + 1) <$> d.

(** [impl::new_frame(keys, st)]: the cleanup pass, the ageing of every
    timer, then the input snapshot: [reset_input] clears every key, the
    surviving keys are marked down and the mouse snapshot is consumed.
    (The text-input characters, display size and mouse position are host
    queries and are left out.) *)
Definition new_frame (keys : gset interface_key) (st : ui_state)
    : ImGuiIO * ui_state :=
  let r := cleanup_keys keys (danger_key_frames st) in
  let st1 := set_danger (age_timers r.2) st in
  (mkIO r.1 (pressed_mouse_keys st1).1 (pressed_mouse_keys st1).2,
   set_pressed_mouse (false, false) st1).

(** The translator run over a sequence of host key sets, one per frame;
    the result lists each frame's translated key set and the timer table
    as [cleanup_keys] left it on that frame, before the ageing. *)
Fixpoint run_frames (frames : list (gset interface_key)) (st : ui_state)
    : list (gset interface_key * gmap interface_key Z) :=
  match frames with
  | [] => []
  | keys :: rest =>
    cleanup_keys keys (danger_key_frames st)
      :: run_frames rest (new_frame keys st).2
  end.

(** ** Session state: context activation and the feed flags *)

(** The process-wide state: the session singleton and the GUI library's
    current context ([ImGui::GetCurrentContext]). *)
Record world := mkWorld { ui : ui_state; GImGui : option nat }.

Definition activate (w : world) : world :=
  mkWorld (set_last_context (GImGui w) (ui w)) (ctx (ui w)).

Definition deactivate (w : world) : world :=
  mkWorld (ui w) (last_context (ui w)).

Definition suppress_next_keyboard_feed_upwards (w : world) : world :=
  mkWorld (set_flags true (should_pass_keyboard_up (ui w)) (ui w)) (GImGui w).

Definition suppress_next_mouse_feed_upwards (w : world) : world :=
  mkWorld (set_flags true (should_pass_keyboard_up (ui w)) (ui w)) (GImGui w).

Definition feed_upwards (w : world) : world :=
  mkWorld (set_flags (suppress_next_keyboard_passthrough (ui w)) true (ui w))
          (GImGui w).

(** The nested loops of [on_feed_end]: is any key of any layer's
    suppressed set among the fed keys? *)
Definition skip_feed (suppressed : gmap Z (gset interface_key))
    (keys : gset interface_key) : bool :=
  map_fold (fun _ s acc =>
              acc || existsb (fun key => bool_decide (key ∈ keys)) (elements s))
           false suppressed.

(** [on_feed_end(keys)]; [keys] is a pointer and may be null. *)
Definition on_feed_end (keys : option (gset interface_key)) (w : world)
    : bool * world :=
  let st := ui w in
  let should_feed :=
    match keys with
    | Some ks =>
      if should_pass_keyboard_up st
         && negb (suppress_next_keyboard_passthrough st)
      then negb (skip_feed (suppressed_keys st) ks)
      else false
    | None => false
    end in
  (should_feed, deactivate (mkWorld (set_flags false false st) (GImGui w))).
End InputTranslator.

(** ** Draw-command interpreter *)

(** The GUI library's draw buffers, with the fields [draw_frame] reads;
    [chrs] is the character payload attached to a vertex. *)
Record ImDrawVert := mkVert { pos : ImVec2; uv : ImVec2; col : Z; chrs : list ascii }.
Record ImDrawCmd := mkCmd { ClipRect : ImVec4; ElemCount : nat; IdxOffset : nat }.
Record ImDrawList := mkDrawList {
  CmdBuffer : list ImDrawCmd;
  IdxBuffer : list nat;
  VtxBuffer : list ImDrawVert }.
Record ImDrawData := mkDrawData {
  DisplaySize : ImVec2;
  FramebufferScale : ImVec2;
  DisplayPos : ImVec2;
  CmdLists : list ImDrawList }.

Definition Qlt_bool (a b : Q) : bool := negb (Qle_bool b a).
Definition Qneq_bool (a b : Q) : bool := negb (Qeq_bool a b).

(** The test that sends a triangle down the glyph branch:
    [uv0.x != uv1.x || uv0.x != uv2.x || uv1.x != uv2.x ||
     uv0.y != uv1.y || uv0.y != uv2.y || uv1.y != uv2.y]. *)
Definition uv_differ (uv0 uv1 uv2 : ImVec2) : bool :=
  Qneq_bool (vx uv0) (vx uv1) || Qneq_bool (vx uv0) (vx uv2)
  || Qneq_bool (vx uv1) (vx uv2)
  || Qneq_bool (vy uv0) (vy uv1) || Qneq_bool (vy uv0) (vy uv2)
  || Qneq_bool (vy uv1) (vy uv2).

(** The text at [&chrs[0]] as [strlen] delimits it. *)
Fixpoint c_string (chrs : list ascii) : string :=
  match chrs with
  | [] => EmptyString
  | c :: rest =>
    if Ascii.eqb c "000"%char then EmptyString else String c (c_string rest)
  end.

(** [xx < clip.x || xx >= clip.z || yy < clip.y || yy >= clip.w] *)
Definition outside_clip (clip : ImVec4) (xx yy : Z) : bool :=
  Qlt_bool (inject_Z xx) (v4x clip) || Qle_bool (v4z clip) (inject_Z xx)
  || Qlt_bool (inject_Z yy) (v4y clip) || Qle_bool (v4w clip) (inject_Z yy).

(** What the interpreter asked of the rasterizer and of the host, in order:
    a record kept beside the display so that statements can speak of the
    calls made. *)
Inductive draw_call :=
| CallDrawTriangle (p0 p1 p2 : ImVec2) (c : Z)
| CallPaintTile (pen : Pen) (x y : Z)
| GlyphClipped (x y : Z).

(** The cell a recorded call is about, for the glyph calls. *)
Definition glyph_cell (c : draw_call) : option (Z * Z) :=
  match c with
  | CallPaintTile _ x y => Some (x, y)
  | GlyphClipped x y => Some (x, y)
  | CallDrawTriangle _ _ _ _ => None
  end.

Record walk_state := mkWalk {
  lastCharX : Q;
  lastCharY : Q;
  scr : Screen;
  calls : list draw_call }.

Section Interpreter.
Variable ColorConvertU32ToFloat4 : Z -> ImVec4.
(** [UTF2DF], the host's conversion to its single-byte encoding. *)
Variable UTF2DF : string -> string.

(** The averaged position of a glyph's six vertices, with the row bias. *)
Definition glyph_xy (pos0 pos1 pos2 ppos0 ppos1 ppos2 : ImVec2) : Q * Q :=
  (((vx pos0 + vx pos1 + vx pos2 + vx ppos0 + vx ppos1 + vx ppos2) / 6)%Q,
   ((vy pos0 + vy pos1 + vy pos2 + vy ppos0 + vy ppos1 + vy ppos2) / 6
    + (1 # 2))%Q).

(** [if (fabs(y - lastCharY) < 0.5f && fabs(x - lastCharX) < 0.5f)
      { x = lastCharX + 1.0f; y = lastCharY; }] *)
Definition nudge (lastX lastY : Q) (xy : Q * Q) : Q * Q :=
  if Qlt_bool (Qabs (xy.2 - lastY)) (1 # 2)
     && Qlt_bool (Qabs (xy.1 - lastX)) (1 # 2)
  then ((lastX + 1)%Q, lastY)
  else xy.

(** The pen of a glyph: the decoded unit, or ['?'] when the conversion does
    not give exactly one; foreground from the vertex colour, background from
    the cell as it is. *)
Definition glyph_pen (v0 : ImDrawVert) (current_bg : Pen) : Pen :=
  let as_utf8 := c_string (chrs v0) in
  let col4 := ColorConvertU32ToFloat4 (col v0) in
  let as_df := UTF2DF as_utf8 in
  match as_df with
  | String c EmptyString => mkPen c (Qtrunc (v4x col4)) (bg current_bg)
  | _ => mkPen "?"%char (Qtrunc (v4x col4)) (bg current_bg)
  end.

(** The three vertices named by the indices at [k], [k+1], [k+2] of the index
    buffer. *)
Definition triangle_at (cmd_list : ImDrawList) (k : nat)
    : res (ImDrawVert * ImDrawVert * ImDrawVert) :=
  vidx0 <-- at_index (IdxBuffer cmd_list) (k + 0) ;;
  vidx1 <-- at_index (IdxBuffer cmd_list) (k + 1) ;;
  vidx2 <-- at_index (IdxBuffer cmd_list) (k + 2) ;;
  v0 <-- at_index (VtxBuffer cmd_list) vidx0 ;;
  v1 <-- at_index (VtxBuffer cmd_list) vidx1 ;;
  v2 <-- at_index (VtxBuffer cmd_list) vidx2 ;;
  Ok (v0, v1, v2).

(** The glyph branch, once both triangles are read. *)
Definition paint_glyph (clip_rect : ImVec4) (v0 v1 v2 vv0 vv1 vv2 : ImDrawVert)
    (ws : walk_state) : walk_state :=
  let xy := nudge (lastCharX ws) (lastCharY ws)
              (glyph_xy (pos v0) (pos v1) (pos v2) (pos vv0) (pos vv1) (pos vv2)) in
  let xx := Qfloor xy.1 in
  let yy := Qfloor xy.2 in
  if outside_clip clip_rect xx yy then
    mkWalk xy.1 xy.2 (scr ws) (calls ws ++ [GlyphClipped xx yy])
  else
    let pen := glyph_pen v0 (readTile xx yy (scr ws)) in
    mkWalk xy.1 xy.2 (paintTile pen xx yy (scr ws))
           (calls ws ++ [CallPaintTile pen xx yy]).

(** The fill branch: [drawTriangle(pos0, pos1, pos2, col0)]. *)
Definition fill_triangle (v0 v1 v2 : ImDrawVert) (ws : walk_state)
    : res walk_state :=
  s <-- drawTriangle ColorConvertU32ToFloat4 (pos v0) (pos v1) (pos v2)
                     (col v0) (scr ws) ;;
  Ok (mkWalk (lastCharX ws) (lastCharY ws) s
             (calls ws ++ [CallDrawTriangle (pos v0) (pos v1) (pos v2) (col v0)])).

(** One turn of the loop over the indices of a command, at index [i]; gives
    the next value of [i] (after the loop's own [i += 3]) and the state. *)
Definition walk_body (cmd_list : ImDrawList) (pcmd : ImDrawCmd)
    (clip_rect : ImVec4) (i : nat) (ws : walk_state) : res (nat * walk_state) :=
  t <-- triangle_at cmd_list (IdxOffset pcmd + i) ;;
  let '(v0, v1, v2) := t in
  if uv_differ (uv v0) (uv v1) (uv v2) then
    tt <-- triangle_at cmd_list (IdxOffset pcmd + i + 3) ;;
    let '(vv0, vv1, vv2) := tt in
    Ok (i + 3 + 3, paint_glyph clip_rect v0 v1 v2 vv0 vv1 vv2 ws)%nat
  else
    ws' <-- fill_triangle v0 v1 v2 ws ;;
    Ok (i + 3, ws')%nat.

(** [for (unsigned int i = 0; i < pcmd->ElemCount; i += 3)]; every turn
    advances [i], so [ElemCount] turns are more than the loop can take. *)
Fixpoint walk (fuel : nat) (cmd_list : ImDrawList) (pcmd : ImDrawCmd)
    (clip_rect : ImVec4) (i : nat) (ws : walk_state) : res walk_state :=
  if (i <? ElemCount pcmd)%nat then
    match fuel with
    | O => Fault OutOfFuel
    | S fuel' =>
      r <-- walk_body cmd_list pcmd clip_rect i ws ;;
      walk fuel' cmd_list pcmd clip_rect r.1 r.2
    end
  else Ok ws.

(** The clip rectangle of a command in framebuffer space. *)
Definition project_clip (clip_off clip_scale : ImVec2) (pcmd : ImDrawCmd) : ImVec4 :=
  mkVec4 ((v4x (ClipRect pcmd) - vx clip_off) * vx clip_scale)%Q
         ((v4y (ClipRect pcmd) - vy clip_off) * vy clip_scale)%Q
         ((v4z (ClipRect pcmd) - vx clip_off) * vx clip_scale)%Q
         ((v4w (ClipRect pcmd) - vy clip_off) * vy clip_scale)%Q.

(** One command: skipped unless its clip rectangle meets the framebuffer;
    the last-glyph position starts afresh for each command. *)
Definition draw_cmd (fb_width fb_height : Z) (clip_off clip_scale : ImVec2)
    (cmd_list : ImDrawList) (acc : Screen * list draw_call) (pcmd : ImDrawCmd)
    : res (Screen * list draw_call) :=
  let clip_rect := project_clip clip_off clip_scale pcmd in
  if Qlt_bool (v4x clip_rect) (inject_Z fb_width)
     && Qlt_bool (v4y clip_rect) (inject_Z fb_height)
     && Qle_bool 0 (v4z clip_rect) && Qle_bool 0 (v4w clip_rect)
  then
    ws <-- walk (ElemCount pcmd) cmd_list pcmd clip_rect 0
             (mkWalk (-10000 # 1)%Q (-10000 # 1)%Q acc.1 acc.2) ;;
    Ok (scr ws, calls ws)
  else Ok acc.

(** [impl::draw_frame(drawData)] on the display [s]: the display afterwards
    and the calls made. *)
Definition draw_frame (drawData : ImDrawData) (s : Screen)
    : res (Screen * list draw_call) :=
  let fb_width := Qtrunc (vx (DisplaySize drawData) * vx (FramebufferScale drawData)) in
  let fb_height := Qtrunc (vy (DisplaySize drawData) * vy (FramebufferScale drawData)) in
  if (fb_width <=? 0) || (fb_height <=? 0) then Ok (s, [])
  else
    res_foldl
      (fun acc cmd_list =>
         res_foldl (draw_cmd fb_width fb_height (DisplayPos drawData)
                             (FramebufferScale drawData) cmd_list)
                   acc (CmdBuffer cmd_list))
      (s, []) (CmdLists drawData).
End Interpreter.

(** ** Window ordering reconciler *)

Section Reconciler.
(** [ImGuiWindow*]: windows are compared by identity. *)
Context `{Countable window}.

(** The two window lists of [ImGuiContext] that the reconciler rewrites. *)
Record ImGuiContext := mkContext {
  Windows : list window;
  WindowsFocusOrder : list window }.

(** The first loop of each pair: the windows of [current] that are not in
    [set_order], in the order they have. *)
Definition push_unclaimed (set_order : gset window) (current : list window)
    : list window :=
  foldl (fun finished win =>
           if decide (win ∈ set_order) then finished else finished ++ [win])
        [] current.

(** [for (auto win : order) finished.push_back(win);] *)
Definition push_all (finished order : list window) : list window :=
  foldl (fun finished win => finished ++ [win]) finished order.

Definition imgui_rearrange_internals (display_order focus_order : list window)
    (c : ImGuiContext) : ImGuiContext :=
  let set_display_order : gset window := list_to_set display_order in
  let set_focus_order : gset window := list_to_set focus_order in
  let finished_display_order :=
    push_all (push_unclaimed set_display_order (Windows c)) display_order in
  let finished_focus_order :=
    push_all (push_unclaimed set_focus_order (WindowsFocusOrder c)) focus_order in
  mkContext finished_display_order finished_focus_order.

(** [imgui_pull_from_context_in_display_order] and its focus-order twin: the
    windows of a context list that belong to [windows], in list order. *)
Definition imgui_pull_from_context (windows : list window)
    (current : list window) : list window :=
  let set_windows : gset window := list_to_set windows in
  foldl (fun result win =>
           if decide (win ∈ set_windows) then result ++ [win] else result)
        [] current.

(** The middle of [on_render_end]: the collected windows are pulled out of
    the two lists of the context, the display subset is sorted by the
    library ([ImGui::SortWindows], here [SortWindows]) and both subsets are
    spliced back. *)
Definition reconcile (SortWindows : list window -> list window)
    (unsorted_windows : list window) (c : ImGuiContext) : ImGuiContext :=
  let display_order := imgui_pull_from_context unsorted_windows (Windows c) in
  let focus_order :=
    imgui_pull_from_context unsorted_windows (WindowsFocusOrder c) in
  let display_order := SortWindows display_order in
  imgui_rearrange_internals display_order focus_order c.
End Reconciler.

(** ** Colour mapper *)

(** The table of [name_to_colour_index]. *)
Definition colour_names : list (string * Z) :=
  [("RESET", -1); ("BLACK", 0); ("BLUE", 1); ("GREEN", 2); ("CYAN", 3);
   ("RED", 4); ("MAGENTA", 5); ("BROWN", 6); ("GREY", 7); ("DARKGREY", 8);
   ("LIGHTBLUE", 9); ("LIGHTGREEN", 10); ("LIGHTCYAN", 11); ("LIGHTRED", 12);
   ("LIGHTMAGENTA", 13); ("YELLOW", 14); ("WHITE", 15); ("MAX", 16)]%string.

(** [names.at(name)]: [std::map::at] throws [std::out_of_range] for a key
    that is not in the map. *)
Definition name_to_colour_index (name : string) : res Z :=
  match (list_to_map colour_names : gmap string Z) !! name with
  | Some i => Ok i
  | None => Fault OutOfRange
  end.

(** [colour_interop(std::vector<int> col3)]: [col3.resize(3)] cuts the
    vector to three entries or fills it up with zeros. *)
Definition colour_interop (col3 : list Z) : ImVec4 :=
  let col3 := resize 3 0 col3 in
  mkVec4 (inject_Z (nth 0 col3 0)) (inject_Z (nth 1 col3 0))
         (inject_Z (nth 2 col3 0)) 1.

(** [colour_interop(std::vector<double> col3)] *)
Definition colour_interop_double (col3 : list Q) : ImVec4 :=
  let col3 := resize 3 0%Q col3 in
  mkVec4 (nth 0 col3 0%Q) (nth 1 col3 0%Q) (nth 2 col3 0%Q) 1.

(** [named_colours(fg, bg, bold)] *)
Definition named_colours (fg bg : string) (bold : bool) : res ImVec4 :=
  f <-- name_to_colour_index fg ;;
  b <-- name_to_colour_index bg ;;
  Ok (colour_interop [f; b; if bold then 1 else 0]).

(** ** Session state: feeding, suppressed keys and layers *)

(** [df::global::enabler], with the mouse fields [feed] reads; a field that
    is not zero counts as set. *)
Record enabler := mkEnabler {
  mouse_lbut : bool;
  mouse_lbut_down : bool;
  mouse_rbut : bool;
  mouse_rbut_down : bool }.

Section Session.
Context `{Countable interface_key}.
Variables CURSOR_LEFT CURSOR_RIGHT CURSOR_UP CURSOR_DOWN : interface_key.
Variable charToKey : ascii -> interface_key.

Local Abbreviation state := (@ui_state interface_key _ _).
Local Abbreviation process := (@world interface_key _ _).
Local Abbreviation input := (@ImGuiIO interface_key _ _).

Definition set_unprocessed (u : gset interface_key) (st : state) : state :=
  mkState (ctx st) (last_context st) (windows st) (rendered_windows st)
    (render_stack st) (suppressed_keys st)
    (suppress_next_keyboard_passthrough st) (should_pass_keyboard_up st)
    (pressed_mouse_keys st) u (danger_key_frames st).

Definition set_suppressed_keys (sk : gmap Z (gset interface_key)) (st : state)
    : state :=
  mkState (ctx st) (last_context st) (windows st) (rendered_windows st)
    (render_stack st) sk
    (suppress_next_keyboard_passthrough st) (should_pass_keyboard_up st)
    (pressed_mouse_keys st) (unprocessed_keys st) (danger_key_frames st).

Definition set_windows (wn : gmap Z (list string)) (st : state) : state :=
  mkState (ctx st) (last_context st) wn (rendered_windows st)
    (render_stack st) (suppressed_keys st)
    (suppress_next_keyboard_passthrough st) (should_pass_keyboard_up st)
    (pressed_mouse_keys st) (unprocessed_keys st) (danger_key_frames st).

Definition set_rendered (r : gset string) (st : state) : state :=
  mkState (ctx st) (last_context st) (windows st) r
    (render_stack st) (suppressed_keys st)
    (suppress_next_keyboard_passthrough st) (should_pass_keyboard_up st)
    (pressed_mouse_keys st) (unprocessed_keys st) (danger_key_frames st).

Definition set_render_stack (n : Z) (st : state) : state :=
  mkState (ctx st) (last_context st) (windows st) (rendered_windows st)
    n (suppressed_keys st)
    (suppress_next_keyboard_passthrough st) (should_pass_keyboard_up st)
    (pressed_mouse_keys st) (unprocessed_keys st) (danger_key_frames st).

(** [ui_state::feed(keys)], with the [enabler] global as an argument
    ([None] when the pointer is null). *)
Definition feed (en : option enabler) (keys : gset interface_key) (st : state)
    : state :=
  let st1 := set_unprocessed (unprocessed_keys st ∪ keys) st in
  let pressed :=
    match en with
    | Some e => (mouse_lbut e || mouse_lbut_down e,
                 mouse_rbut e || mouse_rbut_down e)
    | None => (false, false)
    end in
  set_pressed_mouse pressed st1.

(** [ui_state::new_frame()]: the pending keys go through [impl::new_frame]
    and the pending set is cleared. *)
Definition ui_new_frame (st : state) : input * state :=
  let r := new_frame CURSOR_LEFT CURSOR_RIGHT CURSOR_UP CURSOR_DOWN charToKey
                     (unprocessed_keys st) st in
  (r.1, set_unprocessed ∅ r.2).

(** [impl::reset_input()] on the part of [ImGuiIO] kept here. *)
Definition reset_input (io : input) : input := mkIO ∅ false false.

(** [viewscreen::on_feed_start(is_top, keys)]; [keys] may be null. *)
Definition on_feed_start (en : option enabler) (is_top : bool)
    (keys : option (gset interface_key)) (w : process) : process :=
  let st :=
    match keys with
    | Some ks => if is_top then feed en ks (ui w) else ui w
    | None => ui w
    end in
  activate (mkWorld st (GImGui w)).

(** [st.suppressed_keys[st.render_stack].insert(key)] *)
Definition declare_suppressed_key (key : interface_key) (w : process) : process :=
  let st := ui w in
  let n := render_stack st in
  mkWorld
    (set_suppressed_keys
       (<[n := (suppressed_keys st !!! n) ∪ {[key]}]> (suppressed_keys st)) st)
    (GImGui w).

(** [claim_current_imgui_window()], with the name of the library's current
    window as an argument: [st.windows[st.render_stack].push_back(name)]. *)
Definition claim_current_imgui_window (name : string) (w : process) : process :=
  let st := ui w in
  let n := render_stack st in
  mkWorld (set_windows (<[n := (windows st !!! n) ++ [name]]> (windows st)) st)
          (GImGui w).

(** [viewscreen::on_render_start(is_top)]: the token returned, the input
    snapshot built when the layer is the top one, and the process after.
    (The library's [NewFrame] is not part of the state kept here.) *)
Definition on_render_start (is_top : bool) (w : process)
    : Z * option input * process :=
  let r :=
    if is_top then
      let st0 :=
        set_suppressed_keys ∅
          (set_render_stack 0 (set_rendered ∅ (set_windows ∅ (ui w)))) in
      let w0 := activate (mkWorld st0 (GImGui w)) in
      let f := ui_new_frame (ui w0) in
      (Some f.1, mkWorld f.2 (GImGui w0))
    else (None, w) in
  let st2 := set_render_stack (render_stack (ui r.2) + 1) (ui r.2) in
  (render_stack st2, r.1, mkWorld st2 (GImGui r.2)).

(** [viewscreen::on_dismiss_final_imgui_aware_viewscreen()] *)
Definition on_dismiss_final_imgui_aware_viewscreen (io : input) (w : process)
    : input * process :=
  (reset_input io, mkWorld (set_suppressed_keys ∅ (ui w)) (GImGui w)).
End Session.

(** ** The end of a layer's render *)

Section RenderPass.
Context `{Countable interface_key} `{Countable window}.
(** [win->Name], [win->DC.ChildWindows] and the library's
    [ImGui::SortWindows]. *)
Variable Name : window -> string.
Variable ChildWindows : window -> list window.
Variable SortWindows : list window -> list window.

Local Abbreviation process := (@world interface_key _ _).
Local Abbreviation context := (@ImGuiContext window).

(** [imgui_build_windows(out, name, ignore, is_top)] over the display list of
    the current context. *)
Definition imgui_build_windows (out : list window) (name : list string)
    (ignore : gset string) (is_top : bool) (c : context) : list window :=
  let set_names : gset string := list_to_set name in
  foldl (fun out next =>
           if bool_decide (Name next ∉ set_names) && negb is_top then out
           else if decide (Name next ∈ ignore) then out
           else out ++ [next])
        out (Windows c).

(** [imgui_append(out, should_ignore, win)]: the window unless ignored, then
    its child windows in turn. The recursion of the source follows the
    child lists as deep as they go; [fuel] bounds the depth here. *)
Fixpoint imgui_append (fuel : nat) (out : list window)
    (should_ignore : gset string) (win : window) : res (list window) :=
  match fuel with
  | O => Fault OutOfFuel
  | S fuel' =>
    let out1 :=
      if decide (Name win ∈ should_ignore) then out else out ++ [win] in
    res_foldl (fun out child => imgui_append fuel' out should_ignore child)
              out1 (ChildWindows win)
  end.

Definition imgui_append_children (fuel : nat) (inp : list window)
    (should_ignore : gset string) (out : list window) : res (list window) :=
  res_foldl (fun out i => imgui_append fuel out should_ignore i) out inp.

(** The windows a layer's end collects: those claimed under the token (all
    those of the context when the layer is the top one) that are not yet
    rendered, each followed by its descendants. *)
Definition collect_windows (fuel : nat) (is_top : bool) (id : Z)
    (w : process) (c : context) : res (list window) :=
  let my_windows := windows (ui w) !!! id in
  let unsorted_windows_without_children :=
    imgui_build_windows [] my_windows (rendered_windows (ui w)) is_top c in
  imgui_append_children fuel unsorted_windows_without_children
                        (rendered_windows (ui w)) [].

(** [for (win : unsorted_windows) st.rendered_windows.insert(win->Name);] *)
Definition mark_rendered (rendered : gset string) (ws : list window)
    : gset string :=
  foldl (fun r win => r ∪ {[Name win]}) rendered ws.

(** [viewscreen::on_render_end(is_top, id)] on the session and on the two
    lists of the current context. [st.windows[id]] adds an empty entry for
    a token that has none. The library's render of the windows and the
    draw of its output ([ProgressiveRender], [draw_frame]) work on the
    display and are left to [draw_frame] above. *)
Definition on_render_end (fuel : nat) (is_top : bool) (id : Z)
    (w : process) (c : context) : res (process * context) :=
  let st := ui w in
  let st1 := set_windows (<[id := windows st !!! id]> (windows st)) st in
  unsorted_windows <-- collect_windows fuel is_top id w c ;;
  let st2 := set_rendered (mark_rendered (rendered_windows st) unsorted_windows)
                          st1 in
  let c' := reconcile SortWindows unsorted_windows c in
  let st3 := set_render_stack (render_stack st2 - 1) st2 in
  let w3 := mkWorld st3 (GImGui w) in
  Ok (if is_top then deactivate w3 else w3, c').

(** A bound on how deep the child lists of a window go. *)
Inductive nested_within : nat -> window -> Prop :=
| nested_step (n : nat) (win : window) :
    (forall child, child ∈ ChildWindows win -> nested_within n child) ->
    nested_within (S n) win.

(** [descends win x]: [x] is [win] or is reached from it through child
    lists. *)
Inductive descends : window -> window -> Prop :=
| descends_here (win : window) : descends win win
| descends_child (win child x : window) :
    child ∈ ChildWindows win -> descends child x -> descends win x.
End RenderPass.

Definition v2 (x y : Z) : ImVec2 := mkVec2 (inject_Z x) (inject_Z y).

(** ** Concrete inputs *)

(** [ui_state::ui_state()]: no context yet, every container empty. *)
Definition ui_state_init `{Countable interface_key} : @ui_state interface_key _ _ :=
  mkState None None ∅ ∅ 0 ∅ false false (false, false) ∅ ∅.

(** A key vocabulary for running the translator: the four cursor keys are
    1 to 4 and the key of a character is 1000 plus its code. *)
Definition key_of_char (c : ascii) : Z := 1000 + Z.of_N (N_of_ascii c).

(** A colour conversion that puts the packed colour in the first component,
    and a text conversion that maps every text to itself. *)
Definition colour_in_x (c : Z) : ImVec4 := mkVec4 (inject_Z c) 0 0 1.
Definition utf_identity (t : string) : string := t.

Definition blank_screen : Screen := mkScreen (mkCoord 10 10) ∅.

Definition vert (x y u v : Q) (c : Z) (t : list ascii) : ImDrawVert :=
  mkVert (mkVec2 x y) (mkVec2 u v) c t.

(** Draw data of one list with one command over the whole index buffer, for
    a display of 10 by 10 cells. *)
Definition whole_buffer (clip : ImVec4) (idx : list nat) : ImDrawCmd :=
  mkCmd clip (length idx) 0.

Definition one_list (clip : ImVec4) (idx : list nat) (vs : list ImDrawVert)
    : ImDrawList :=
  mkDrawList [whole_buffer clip idx] idx vs.

Definition one_command (clip : ImVec4) (idx : list nat) (vs : list ImDrawVert)
    : ImDrawData :=
  mkDrawData (mkVec2 10 10) (mkVec2 1 1) (mkVec2 0 0) [one_list clip idx vs].

(** The state in which the walk over a command starts. *)
Definition walk_start (s : Screen) : walk_state :=
  mkWalk (-10000 # 1)%Q (-10000 # 1)%Q s [].

(** The four corners of a glyph quad, with the four corners of its texture
    region, and the two triangles the library makes of a quad. *)
Definition quad (x1 x2 y1 y2 : Q) (c : Z) (t : list ascii) : list ImDrawVert :=
  [vert x1 y1 0 0 c t; vert x2 y1 1 0 c t; vert x2 y2 1 1 c t; vert x1 y2 0 1 c t].

Definition full_clip : ImVec4 := mkVec4 0 0 10 10.
Definition small_clip : ImVec4 := mkVec4 0 0 2 2.

(** One solid triangle at (5,5), (7,5), (5,7), for use under the clip
    rectangle [0,2) x [0,2). *)
Definition solid_idx : list nat := [0; 1; 2]%nat.
Definition solid_vtx : list ImDrawVert :=
  [vert 5 5 0 0 7 []; vert 7 5 0 0 7 []; vert 5 7 0 0 7 []].
Definition fill_outside_clip : ImDrawData :=
  one_command small_clip solid_idx solid_vtx.

(** Two consecutive triangles whose six vertices share the texture
    coordinate (1/2, 1/2). *)
Definition shared_uv_idx : list nat := [0; 1; 2; 3; 4; 5]%nat.
Definition shared_uv_vtx : list ImDrawVert :=
  [vert 1 1 (1 # 2) (1 # 2) 7 []; vert 3 1 (1 # 2) (1 # 2) 7 [];
   vert 1 3 (1 # 2) (1 # 2) 7 []; vert 3 1 (1 # 2) (1 # 2) 7 [];
   vert 3 3 (1 # 2) (1 # 2) 7 []; vert 1 3 (1 # 2) (1 # 2) 7 []].
Definition shared_uv_pair : ImDrawData :=
  one_command full_clip shared_uv_idx shared_uv_vtx.

(** A quad whose first triangle has three pairwise distinct texture
    coordinates. *)
Definition quad_idx : list nat := [0; 1; 2; 0; 2; 3]%nat.
Definition distinct_uv_vtx : list ImDrawVert :=
  quad 2 3 4 5 7 ["a"%char; "000"%char].
Definition distinct_uv_quad : ImDrawData :=
  one_command full_clip quad_idx distinct_uv_vtx.

(** Two glyph quads on one row, the second 3/4 of a cell to the right of
    the first: their averaged positions are (5, 4) and (5.75, 4). *)
Definition two_quads_idx : list nat :=
  [0; 1; 2; 0; 2; 3; 4; 5; 6; 4; 6; 7]%nat.
Definition close_glyphs_vtx : list ImDrawVert :=
  quad (9 # 2) (11 # 2) 3 4 7 ["a"%char; "000"%char]
  ++ quad (21 # 4) (25 # 4) 3 4 7 ["b"%char; "000"%char].
Definition two_close_glyphs : ImDrawData :=
  one_command full_clip two_quads_idx close_glyphs_vtx.

(** The first triangle of a glyph quad alone in the index buffer. *)
Definition lone_triangle_idx : list nat := [0; 1; 2]%nat.

(** Two top-level windows, of which the first has one child; windows are
    known by their names, and the library sort used to run the reconciler
    reverses its argument. *)
Definition children_of (win : string) : list string :=
  if decide (win = "main"%string) then ["child"%string] else [].
Definition two_windows : @ImGuiContext string :=
  mkContext ["main"%string; "other"%string] ["main"%string; "other"%string].
Definition name_of (win : string) : string := win.
Definition fresh_process : @world Z _ _ := mkWorld ui_state_init None.

(** The cells of the right triangle with legs of four cells, row by row. *)
Definition right_triangle_cells : list (Z * Z) :=
  [(0, 0); (1, 0); (2, 0); (3, 0); (4, 0);
   (0, 1); (1, 1); (2, 1); (3, 1);
   (0, 2); (1, 2); (2, 2);
   (0, 3); (1, 3);
   (0, 4)].

(** * Properties *)

(** ** Lists *)

Lemma filter_none {A} (P : A → Prop) `{∀ x, Decision (P x)} (l : list A) :
  (∀ x, x ∈ l → ¬ P x) → filter P l = [].
Proof.
  induction l as [|a l IH]; intros Hl; [done|].
  rewrite filter_cons_False by (apply Hl; left).
  apply IH. intros x Hx. apply Hl. by right.
Qed.

Lemma foldl_foldr_reverse {A B} (f : A → B → A) (a : A) (l : list B) :
  foldl f a l = foldr (fun b a => f a b) a (reverse l).
Proof.
  revert a. induction l as [|b l IH]; intros a; simpl; [done|].
  by rewrite reverse_cons, foldr_snoc, IH.
Qed.

Lemma filter_all {A} (P : A → Prop) `{∀ x, Decision (P x)} (l : list A) :
  (∀ x, x ∈ l → P x) → filter P l = l.
Proof.
  induction l as [|a l IH]; intros Hl; [done|].
  rewrite filter_cons_True by (apply Hl; left).
  f_equal. apply IH. intros x Hx. apply Hl. by right.
Qed.

(** ** Faults *)

Lemma res_foldl_inv {A B} (I : A → Prop) (f : A → B → res A) (l : list B) (a : A) :
  (∀ a b, b ∈ l → I a → ∃ a', f a b = Ok a' ∧ I a') →
  I a → ∃ a', res_foldl f a l = Ok a' ∧ I a'.
Proof.
  revert a. induction l as [|b l IH]; intros a Hf Ha; simpl.
  - by exists a.
  - destruct (Hf a b) as (a1 & -> & Ha1); [left|done|]. simpl.
    apply IH; [|done]. intros a2 b2 Hb2. apply Hf. by right.
Qed.

(** ** Scan-convert rasterizer *)

Lemma xr_get_ok (xrange : list Z) (i : Z) :
  0 ≤ i < Z.of_nat (length xrange) → ∃ v, xr_get xrange i = Ok v.
Proof.
  intros Hi. unfold xr_get, at_index.
  destruct (Z.ltb_spec i 0); [lia|].
  destruct (lookup_lt_is_Some_2 xrange (Z.to_nat i)) as [v ->]; [lia|].
  by exists v.
Qed.

Lemma xr_set_ok (xrange : list Z) (i v : Z) :
  0 ≤ i < Z.of_nat (length xrange) →
  ∃ xr', xr_set xrange i v = Ok xr' ∧ length xr' = length xrange.
Proof.
  intros Hi. unfold xr_set.
  destruct (Z.leb_spec 0 i); [|lia].
  destruct (Z.ltb_spec i (Z.of_nat (length xrange))); [|lia]. simpl.
  eexists; split; [done|]. apply length_insert.
Qed.

(** No turn of [ScanLine] reads or writes outside a scratch vector of
    [2 * ymax] entries. *)
Lemma widen_row_ok (ymax x y : Z) (xrange : list Z) :
  Z.of_nat (length xrange) = 2 * ymax →
  ∃ xr', widen_row ymax x y xrange = Ok xr' ∧ length xr' = length xrange.
Proof.
  intros Hlen. unfold widen_row.
  destruct (Z.leb_spec 0 y); simpl; [|by exists xrange].
  destruct (Z.ltb_spec y ymax); simpl; [|by exists xrange].
  destruct (xr_get_ok xrange (2 * y + 0)) as [lo ->]; [lia|]. simpl.
  assert (∃ xr0, (if x <? lo then xr_set xrange (2 * y + 0) x else Ok xrange)
                 = Ok xr0 ∧ length xr0 = length xrange) as (xr0 & -> & Hlen0).
  { destruct (x <? lo); [apply xr_set_ok; lia|by exists xrange]. }
  simpl. destruct (xr_get_ok xr0 (2 * y + 1)) as [hi ->]; [lia|]. simpl.
  destruct (hi <? x); [|by exists xr0].
  destruct (xr_set_ok xr0 (2 * y + 1) x) as (xr1 & -> & Hlen1); [lia|].
  exists xr1. split; [done|congruence].
Qed.

Lemma ScanLine_loop_ok (cnt : nat) (m n dx1 dy1 dx2 dy2 ymax x y k : Z)
    (xrange : list Z) :
  Z.of_nat (length xrange) = 2 * ymax →
  ∃ xr', ScanLine_loop cnt m n dx1 dy1 dx2 dy2 ymax x y k xrange = Ok xr'
         ∧ length xr' = length xrange.
Proof.
  revert x y k xrange. induction cnt as [|cnt IH]; intros x y k xrange Hlen; simpl.
  - by exists xrange.
  - destruct (widen_row_ok ymax x y xrange Hlen) as (xr1 & -> & Hlen1). simpl.
    destruct (k + n <? m).
    + destruct (IH (x + dx2) (y + dy2) (k + n) xr1) as (xr' & -> & ?); [lia|].
      exists xr'. split; [done|congruence].
    + destruct (IH (x + dx1) (y + dy1) (k + n - m) xr1) as (xr' & -> & ?); [lia|].
      exists xr'. split; [done|congruence].
Qed.

Lemma ScanLine_ok (x1 y1 x2 y2 ymax : Z) (xrange : list Z) :
  Z.of_nat (length xrange) = 2 * ymax →
  ∃ xr', ScanLine x1 y1 x2 y2 ymax xrange = Ok xr'
         ∧ length xr' = length xrange.
Proof.
  intros Hlen. unfold ScanLine.
  destruct (ABS (x2 - x1) <? ABS (y2 - y1)); by apply ScanLine_loop_ok.
Qed.

Lemma init_xrange_ok (ydelta : Z) :
  0 ≤ ydelta →
  ∃ g, init_xrange ydelta = Ok g ∧ Z.of_nat (length g) = 2 * ydelta.
Proof.
  intros Hy. unfold init_xrange.
  apply (res_foldl_inv (fun g => Z.of_nat (length g) = 2 * ydelta)).
  - intros g y Hin Hlen. apply elem_of_seqZ in Hin.
    destruct (xr_set_ok g (2 * y + 0) 999999) as (g0 & -> & Hlen0); [lia|].
    simpl. destruct (xr_set_ok g0 (2 * y + 1) (-999999)) as (g1 & -> & Hlen1); [lia|].
    exists g1. split; [done|lia].
  - rewrite length_replicate. lia.
Qed.

Lemma Qfloor_min_le_max (a b c : Q) :
  Qfloor (Qmin (Qmin a b) c) ≤ Qfloor (Qmax (Qmax a b) c).
Proof.
  apply Qfloor_resp_le.
  eapply Qle_trans; [apply Q.le_min_r|apply Q.le_max_r].
Qed.

(** The scan of any triangle runs without a fault; its scratch vector has
    two entries for each of its [ydelta >= 1] rows. *)
Lemma scan_triangle_ok (p0 p1 p2 : ImVec2) :
  ∃ sc, scan_triangle p0 p1 p2 = Ok sc
        ∧ 1 ≤ scan_ydelta sc
        ∧ Z.of_nat (length (scan_xrange sc)) = 2 * scan_ydelta sc.
Proof.
  unfold scan_triangle.
  pose proof (Qfloor_min_le_max (vy p0) (vy p1) (vy p2)) as Hy.
  set (ymin := Qfloor (Qmin (Qmin (vy p0) (vy p1)) (vy p2))) in *.
  set (ymax := Qfloor (Qmax (Qmax (vy p0) (vy p1)) (vy p2))) in *.
  destruct (init_xrange_ok (ymax - ymin + 1)) as (g & -> & Hg); [lia|]. simpl.
  destruct (ScanLine_ok (Qfloor (vx p0)) (Qfloor (vy p0) - ymin)
              (Qfloor (vx p1)) (Qfloor (vy p1) - ymin) (ymax - ymin + 1) g)
    as (g1 & -> & Hg1); [done|]. simpl.
  destruct (ScanLine_ok (Qfloor (vx p1)) (Qfloor (vy p1) - ymin)
              (Qfloor (vx p2)) (Qfloor (vy p2) - ymin) (ymax - ymin + 1) g1)
    as (g2 & -> & Hg2); [lia|]. simpl.
  destruct (ScanLine_ok (Qfloor (vx p2)) (Qfloor (vy p2) - ymin)
              (Qfloor (vx p0)) (Qfloor (vy p0) - ymin) (ymax - ymin + 1) g2)
    as (g3 & -> & Hg3); [lia|]. simpl.
  eexists. split; [done|]. simpl. split; lia.
Qed.

Lemma row_candidates_ok (xrange : list Z) (ymin y : Z) :
  0 ≤ 2 * y ∧ 2 * y + 1 < Z.of_nat (length xrange) →
  ∃ row, row_candidates xrange ymin y = Ok row.
Proof.
  intros Hy. unfold row_candidates.
  destruct (xr_get_ok xrange (2 * y + 1)) as [hi ->]; [lia|]. simpl.
  destruct (xr_get_ok xrange (2 * y + 0)) as [lo ->]; [lia|]. simpl.
  destruct (lo <=? hi); eauto.
Qed.

Lemma triangle_candidates_ok (p0 p1 p2 : ImVec2) :
  ∃ cand, triangle_candidates p0 p1 p2 = Ok cand.
Proof.
  unfold triangle_candidates.
  destruct (scan_triangle_ok p0 p1 p2) as (sc & -> & Hd & Hlen). simpl.
  destruct (res_foldl_inv (fun _ => True)
              (fun cells y =>
                 row <-- row_candidates (scan_xrange sc) (scan_ymin sc) y ;;
                 Ok (cells ++ row))
              (seqZ 0 (scan_ydelta sc)) []) as (cand & Hc & _); [|done|by exists cand].
  intros cells y Hin _. apply elem_of_seqZ in Hin.
  destruct (row_candidates_ok (scan_xrange sc) (scan_ymin sc) y) as [row ->]; [lia|].
  simpl. eauto.
Qed.

Lemma on_screen_spec (d : coord2d) (x y : Z) :
  on_screen d x y = true ↔ 0 ≤ x < cx d ∧ 0 ≤ y < cy d.
Proof.
  unfold on_screen. rewrite !andb_true_iff.
  rewrite !Z.leb_le, !Z.ltb_lt. lia.
Qed.

Lemma paintTile_dim (pen : Pen) (x y : Z) (s : Screen) :
  dim (paintTile pen x y s) = dim s.
Proof. unfold paintTile. by destruct (on_screen (dim s) x y). Qed.

Lemma paintTile_tiles (pen : Pen) (x y : Z) (s : Screen) (c : Z * Z) :
  tiles (paintTile pen x y s) !! c
  = if decide (c = (x, y) ∧ on_screen (dim s) x y = true)
    then Some pen else tiles s !! c.
Proof.
  unfold paintTile. destruct (on_screen (dim s) x y) eqn:Hon; simpl.
  - rewrite lookup_insert. destruct (decide ((x, y) = c)) as [<-|Hne].
    + by rewrite decide_True.
    + by rewrite decide_False by (intros [? _]; congruence).
  - by rewrite decide_False by (intros [_ ?]; congruence).
Qed.

Lemma paint_cells_dim (pen : Pen) (cells : list (Z * Z)) (s : Screen) :
  dim (paint_cells pen cells s) = dim s.
Proof.
  revert s. induction cells as [|c cells IH]; intros s; simpl; [done|].
  unfold paint_cells in *; simpl. rewrite IH. apply paintTile_dim.
Qed.

(** The display after the paint loop: a listed cell of the grid holds a
    space in the pen's colours, every other cell holds what it held. *)
Lemma paint_cells_tiles (pen : Pen) (cells : list (Z * Z)) (s : Screen) (c : Z * Z) :
  tiles (paint_cells pen cells s) !! c
  = if decide (c ∈ cells ∧ on_screen (dim s) c.1 c.2 = true)
    then Some (mkPen " " (fg pen) (bg pen)) else tiles s !! c.
Proof.
  revert s. induction cells as [|c0 cells IH]; intros s.
  - unfold paint_cells; cbn [foldl]. case_decide as Hd; [|done].
    destruct Hd as [Hin _]. by apply elem_of_nil in Hin.
  - unfold paint_cells in *; cbn [foldl]. rewrite IH.
    unfold paintString_space. rewrite paintTile_dim, paintTile_tiles.
    destruct c0 as [x0 y0]; cbn [fst snd].
    destruct (decide (c ∈ cells ∧ on_screen (dim s) c.1 c.2 = true))
      as [[Hin Hon]|Hn];
      destruct (decide (c = (x0, y0) ∧ on_screen (dim s) x0 y0 = true))
        as [[Heq Hon']|Hn'];
      destruct (decide (c ∈ (x0, y0) :: cells ∧ on_screen (dim s) c.1 c.2 = true))
        as [[Hin2 Hon2]|Hn2]; try done; exfalso.
    + apply Hn2. split; [by right|done].
    + apply Hn2. split; [by right|done].
    + subst c. apply Hn2. split; [left|done].
    + apply elem_of_cons in Hin2 as [->|Hin2]; [by apply Hn'|by apply Hn].
Qed.


Lemma right_triangle_cells_spec (x y : Z) :
  (x, y) ∈ right_triangle_cells ↔ 0 ≤ x ∧ 0 ≤ y ∧ x + y ≤ 4.
Proof.
  unfold right_triangle_cells. split.
  - intros Hin.
    repeat (apply elem_of_cons in Hin as [[= -> ->]|Hin]; [lia|]).
    by apply elem_of_nil in Hin.
  - intros (Hx & Hy & Hxy).
    assert (x = 0 ∨ x = 1 ∨ x = 2 ∨ x = 3 ∨ x = 4) as Hxs by lia.
    assert (y = 0 ∨ y = 1 ∨ y = 2 ∨ y = 3 ∨ y = 4) as Hys by lia.
    destruct Hxs as [->|[->|[->|[->| ->]]]];
      destruct Hys as [->|[->|[->|[->| ->]]]];
      try lia; repeat (first [left | right]).
Qed.

Lemma right_triangle_on_screen (d : coord2d) :
  5 ≤ cx d → 5 ≤ cy d →
  filter (fun c => on_screen d c.1 c.2 = true) right_triangle_cells
  = right_triangle_cells.
Proof.
  intros Hx Hy. apply filter_all. intros [x y] Hin.
  apply right_triangle_cells_spec in Hin. simpl.
  apply on_screen_spec. lia.
Qed.



(** ** Input translator *)

Section InputFacts.
Context `{Countable interface_key}.
Variables CURSOR_LEFT CURSOR_RIGHT CURSOR_UP CURSOR_DOWN : interface_key.
Variable charToKey : ascii -> interface_key.

(** The eight keys that [cleanup_keys] names are eight members of the
    enumeration. *)
Hypothesis keys_distinct :
  NoDup [charToKey "2"; charToKey "4"; charToKey "6"; charToKey "8";
         CURSOR_LEFT; CURSOR_RIGHT; CURSOR_UP; CURSOR_DOWN].

Local Abbreviation table :=
  (to_kill_if_seen CURSOR_LEFT CURSOR_RIGHT CURSOR_UP CURSOR_DOWN charToKey).
Local Abbreviation cleanup :=
  (cleanup_keys CURSOR_LEFT CURSOR_RIGHT CURSOR_UP CURSOR_DOWN charToKey).
Local Abbreviation frames_run :=
  (run_frames CURSOR_LEFT CURSOR_RIGHT CURSOR_UP CURSOR_DOWN charToKey).
Local Abbreviation frame :=
  (new_frame CURSOR_LEFT CURSOR_RIGHT CURSOR_UP CURSOR_DOWN charToKey).

Implicit Types (keys : gset interface_key) (d : gmap interface_key Z)
  (k x : interface_key) (v : list interface_key).

Ltac distinct :=
  let Hd := fresh "Hd" in
  pose proof keys_distinct as Hd;
  rewrite !NoDup_cons, !not_elem_of_cons in Hd;
  destruct_and!.

Lemma table_lookup k v :
  table !! k = Some v ↔
    (k = charToKey "4" ∧ v = [CURSOR_LEFT])
    ∨ (k = charToKey "6" ∧ v = [CURSOR_RIGHT])
    ∨ (k = charToKey "8" ∧ v = [CURSOR_UP])
    ∨ (k = charToKey "2" ∧ v = [CURSOR_DOWN]).
Proof.
  distinct. unfold to_kill_if_seen.
  rewrite !lookup_insert_Some, lookup_empty.
  split.
  - intros [[<- <-]|[? [[<- <-]|[? [[<- <-]|[? [[<- <-]|[? ?]]]]]]]]; tauto || done.
  - intros [[-> ->]|[[-> ->]|[[-> ->]|[-> ->]]]].
    + do 3 (right; split; [congruence|]). by left.
    + do 2 (right; split; [congruence|]). by left.
    + right; split; [congruence|]. by left.
    + by left.
Qed.

(** No trigger key is among the keys any entry kills. *)
Lemma trigger_not_killed k v k' v' :
  table !! k = Some v → table !! k' = Some v' → k ∉ v'.
Proof.
  distinct. rewrite !table_lookup.
  intros [[-> ->]|[[-> ->]|[[-> ->]|[-> ->]]]]
         [[-> ->]|[[-> ->]|[[-> ->]|[-> ->]]]];
    rewrite list_elem_of_singleton; congruence.
Qed.

Lemma table_total k x :
  x ∈ table !!! k ↔ ∃ v, table !! k = Some v ∧ x ∈ v.
Proof.
  rewrite lookup_total_alt. destruct (table !! k) as [v|]; simpl.
  - split; [eauto|]. by intros (? & [= <-] & ?).
  - split; [by intros ?%elem_of_nil|]. by intros (? & ? & ?).
Qed.

Lemma erase_all_spec v keys x : x ∈ erase_all v keys ↔ x ∈ keys ∧ x ∉ v.
Proof.
  unfold erase_all. revert keys.
  induction v as [|c v IH]; intros keys; simpl.
  - split; [|tauto]. intros ?. split; [done|]. apply not_elem_of_nil.
  - rewrite IH, not_elem_of_cons, elem_of_difference, not_elem_of_singleton. tauto.
Qed.

(** The first loop, over any part of the table. *)
Lemma kill_if_seen_fold keys d (m : gmap interface_key (list interface_key)) :
  m ⊆ table →
  (∀ x, x ∈ (map_fold kill_if_seen (keys, d) m).1 ↔
        x ∈ keys ∧ ∀ k v, m !! k = Some v → k ∈ keys → x ∉ v)
  ∧ (∀ k, (map_fold kill_if_seen (keys, d) m).2 !! k
          = if decide (k ∈ keys ∧ is_Some (m !! k)) then Some 0 else d !! k).
Proof.
  revert m.
  apply (map_fold_weak_ind
           (fun acc m =>
              m ⊆ table →
              (∀ x, x ∈ acc.1 ↔ x ∈ keys ∧ ∀ k v, m !! k = Some v → k ∈ keys → x ∉ v)
              ∧ (∀ k, acc.2 !! k
                      = if decide (k ∈ keys ∧ is_Some (m !! k)) then Some 0 else d !! k))).
  - intros _. split.
    + intros x. simpl. split; [|tauto]. intros ?. split; [done|].
      intros k v. by rewrite lookup_empty.
    + intros k. simpl. rewrite decide_False; [done|].
      rewrite lookup_empty. intros [_ [? ?]]. done.
  - intros i vi m' r Hi IH Hsub.
    assert (Htab : table !! i = Some vi).
    { eapply lookup_weaken; [|exact Hsub]. apply lookup_insert_eq. }
    assert (Hsub' : m' ⊆ table).
    { etrans; [|exact Hsub]. by apply insert_subseteq. }
    destruct (IH Hsub') as [IH1 IH2]. clear IH.
    assert (Hi_in : i ∈ r.1 ↔ i ∈ keys).
    { rewrite IH1. split; [tauto|]. intros ?. split; [done|].
      intros k v Hk _. eapply trigger_not_killed; [exact Htab|].
      eapply lookup_weaken; [exact Hk|exact Hsub']. }
    unfold kill_if_seen. destruct (decide (i ∈ r.1)) as [Hin|Hnin]; simpl.
    + apply Hi_in in Hin. split.
      * intros x. rewrite erase_all_spec, IH1. split.
        -- intros [[Hx Hall] Hxv]. split; [done|]. intros k v Hk Hkin.
           apply lookup_insert_Some in Hk as [[<- <-]|[_ Hk]]; [done|by eapply Hall].
        -- intros [Hx Hall]. split; [split; [done|]|].
           ++ intros k v Hk Hkin. apply (Hall k v); [|done].
              apply lookup_insert_Some. right. split; [|done]. congruence.
           ++ apply (Hall i vi); [apply lookup_insert_eq|done].
      * intros k. destruct (decide (i = k)) as [<-|Hne].
        -- rewrite !lookup_insert_eq. rewrite decide_True; [done|]. eauto.
        -- rewrite !lookup_insert_ne by done. apply IH2.
    + assert (Hnk : i ∉ keys) by (intros ?; by apply Hnin, Hi_in). split.
      * intros x. rewrite IH1. split.
        -- intros [Hx Hall]. split; [done|]. intros k v Hk Hkin.
           apply lookup_insert_Some in Hk as [[<- <-]|[_ Hk]]; [done|by eapply Hall].
        -- intros [Hx Hall]. split; [done|]. intros k v Hk Hkin.
           apply (Hall k v); [|done].
           apply lookup_insert_Some. right. split; [|done]. congruence.
      * intros k. rewrite IH2. destruct (decide (i = k)) as [<-|Hne].
        -- rewrite lookup_insert_eq, Hi.
           rewrite !decide_False; [done| |]; intros [? ?]; [done|].
           by destruct (is_Some_None (A:=list interface_key)).
        -- by rewrite lookup_insert_ne.
Qed.

(** The second loop, over any timer table. *)
Lemma kill_if_recent_fold keys d x :
  x ∈ map_fold (kill_if_recent CURSOR_LEFT CURSOR_RIGHT CURSOR_UP CURSOR_DOWN
                               charToKey) keys d
  ↔ x ∈ keys
    ∧ ∀ k t, d !! k = Some t → t ≤ max_suppress_frames → x ∉ table !!! k.
Proof.
  revert x.
  apply (map_fold_weak_ind
           (fun r (m : gmap interface_key Z) =>
              ∀ x, x ∈ r ↔ x ∈ keys
                   ∧ ∀ k t, m !! k = Some t → t ≤ max_suppress_frames →
                            x ∉ table !!! k)).
  - intros x. split; [|tauto]. intros ?. split; [done|].
    intros k t. by rewrite lookup_empty.
  - intros i t m r Hi IH x. unfold kill_if_recent.
    destruct (Z.leb_spec t max_suppress_frames) as [Hle|Hgt].
    + rewrite erase_all_spec, IH. split.
      * intros [[Hx Hall] Hxv]. split; [done|]. intros k t' Hk Ht'.
        apply lookup_insert_Some in Hk as [[<- <-]|[_ Hk]]; [done|by eapply Hall].
      * intros [Hx Hall]. split; [split; [done|]|].
        -- intros k t' Hk Ht'. apply (Hall k t'); [|done].
           apply lookup_insert_Some. right. split; [|done]. congruence.
        -- apply (Hall i t); [apply lookup_insert_eq|done].
    + rewrite IH. split.
      * intros [Hx Hall]. split; [done|]. intros k t' Hk Ht'.
        apply lookup_insert_Some in Hk as [[<- <-]|[_ Hk]]; [lia|by eapply Hall].
      * intros [Hx Hall]. split; [done|]. intros k t' Hk Ht'.
        apply (Hall k t'); [|done].
        apply lookup_insert_Some. right. split; [|done]. congruence.
Qed.

(** What [cleanup_keys] does, for every key set and every timer table: the
    timer of each digit key present is set to 0 and the others are kept; a
    key survives unless its digit key is present or its digit key's timer
    is at most 10. *)
Lemma cleanup_keys_spec keys d :
  (∀ k, (cleanup keys d).2 !! k
        = if decide (k ∈ keys ∧ is_Some (table !! k)) then Some 0 else d !! k)
  ∧ (∀ x, x ∈ (cleanup keys d).1 ↔
          x ∈ keys
          ∧ (∀ k v, table !! k = Some v → k ∈ keys → x ∉ v)
          ∧ (∀ k t, (cleanup keys d).2 !! k = Some t →
                    t ≤ max_suppress_frames → x ∉ table !!! k)).
Proof.
  unfold cleanup_keys.
  destruct (kill_if_seen_fold keys d table) as [H1 H2]; [done|].
  simpl in *. split; [exact H2|].
  intros x. rewrite kill_if_recent_fold, H1. tauto.
Qed.
(** *** The order of the visits does not matter *)

Lemma erase_all_comm v v' keys :
  erase_all v (erase_all v' keys) = erase_all v' (erase_all v keys).
Proof. apply set_eq. intros x. rewrite !erase_all_spec. tauto. Qed.

Lemma kill_if_seen_comm k1 v1 k2 v2 (acc : gset interface_key * gmap interface_key Z) :
  table !! k1 = Some v1 → table !! k2 = Some v2 →
  kill_if_seen k1 v1 (kill_if_seen k2 v2 acc)
  = kill_if_seen k2 v2 (kill_if_seen k1 v1 acc).
Proof.
  intros H1 H2. destruct (decide (k1 = k2)) as [->|Hne].
  { assert (v1 = v2) as -> by congruence. done. }
  destruct acc as [s d]. unfold kill_if_seen. cbn [fst snd].
  assert (Hk1 : ∀ s', k1 ∈ erase_all v2 s' ↔ k1 ∈ s').
  { intros s'. rewrite erase_all_spec. split; [tauto|]. intros ?. split; [done|].
    exact (trigger_not_killed _ _ _ _ H1 H2). }
  assert (Hk2 : ∀ s', k2 ∈ erase_all v1 s' ↔ k2 ∈ s').
  { intros s'. rewrite erase_all_spec. split; [tauto|]. intros ?. split; [done|].
    exact (trigger_not_killed _ _ _ _ H2 H1). }
  destruct (decide (k2 ∈ s)) as [Hin2|Hnin2];
    destruct (decide (k1 ∈ s)) as [Hin1|Hnin1]; cbn [fst snd].
  - rewrite (decide_True (P := k1 ∈ erase_all v2 s)) by (by apply Hk1).
    rewrite (decide_True (P := k2 ∈ erase_all v1 s)) by (by apply Hk2).
    f_equal; [apply erase_all_comm|by apply insert_insert_ne].
  - rewrite (decide_False (P := k1 ∈ erase_all v2 s)) by (by rewrite Hk1).
    by rewrite (decide_True (P := k2 ∈ s)).
  - rewrite (decide_True (P := k1 ∈ s)) by done.
    by rewrite (decide_False (P := k2 ∈ erase_all v1 s)) by (by rewrite Hk2).
  - rewrite (decide_False (P := k1 ∈ s)) by done.
    by rewrite (decide_False (P := k2 ∈ s)).
Qed.

Lemma kill_if_recent_comm k1 t1 k2 t2 keys :
  kill_if_recent CURSOR_LEFT CURSOR_RIGHT CURSOR_UP CURSOR_DOWN charToKey k1 t1
    (kill_if_recent CURSOR_LEFT CURSOR_RIGHT CURSOR_UP CURSOR_DOWN charToKey
                    k2 t2 keys)
  = kill_if_recent CURSOR_LEFT CURSOR_RIGHT CURSOR_UP CURSOR_DOWN charToKey k2 t2
      (kill_if_recent CURSOR_LEFT CURSOR_RIGHT CURSOR_UP CURSOR_DOWN charToKey
                      k1 t1 keys).
Proof.
  unfold kill_if_recent.
  destruct (t1 <=? max_suppress_frames), (t2 <=? max_suppress_frames);
    try done. apply erase_all_comm.
Qed.

(** X1. Whatever the order in which the two loops visit their maps, the result
    is that of [cleanup_keys]. *)
Lemma cleanup_keys_order_irrelevant
    (visit1 : list (interface_key * list interface_key))
    (visit2 : gmap interface_key Z → list (interface_key * Z)) keys d :
  visit1 ≡ₚ map_to_list table →
  (∀ m, visit2 m ≡ₚ map_to_list m) →
  cleanup_keys_in_order CURSOR_LEFT CURSOR_RIGHT CURSOR_UP CURSOR_DOWN charToKey
    visit1 visit2 keys d
  = cleanup keys d.
Proof.
  intros Hv1 Hv2. unfold cleanup_keys_in_order, cleanup_keys.
  assert (Hacc : foldl (fun acc kv => kill_if_seen kv.1 kv.2 acc) (keys, d) visit1
                 = map_fold kill_if_seen (keys, d) table).
  { rewrite foldl_foldr_reverse, map_fold_foldr.
    rewrite (foldr_ext (uncurry kill_if_seen)
               (fun kv acc => kill_if_seen kv.1 kv.2 acc)
               (keys, d) (keys, d) (map_to_list table) (map_to_list table))
      by (done || by intros [k v] a).
    apply (foldr_permutation (=)
             (fun (kv : interface_key * list interface_key) acc =>
                kill_if_seen kv.1 kv.2 acc)).
    - intros kv acc1 acc2 ->. done.
    - intros j1 [k1 v1] j2 [k2 v2] b _ Hj1 Hj2. cbn [fst snd].
      apply kill_if_seen_comm; apply elem_of_map_to_list; rewrite <- Hv1;
        apply elem_of_reverse; by eapply list_elem_of_lookup_2.
    - by rewrite reverse_Permutation. }
  rewrite Hacc. f_equal.
  set (acc := map_fold kill_if_seen (keys, d) table).
  rewrite foldl_foldr_reverse, map_fold_foldr.
  rewrite (foldr_ext (uncurry (kill_if_recent CURSOR_LEFT CURSOR_RIGHT CURSOR_UP
                                              CURSOR_DOWN charToKey))
             (fun kt ks => kill_if_recent CURSOR_LEFT CURSOR_RIGHT CURSOR_UP
                                          CURSOR_DOWN charToKey kt.1 kt.2 ks)
             acc.1 acc.1 (map_to_list acc.2) (map_to_list acc.2))
    by (done || by intros [k t] a).
  apply (foldr_permutation (=)
           (fun (kt : interface_key * Z) ks =>
              kill_if_recent CURSOR_LEFT CURSOR_RIGHT CURSOR_UP CURSOR_DOWN
                             charToKey kt.1 kt.2 ks)).
  - intros kt ks1 ks2 ->. done.
  - intros j1 [k1 t1] j2 [k2 t2] b _ _ _. apply kill_if_recent_comm.
  - by rewrite reverse_Permutation.
Qed.

Lemma cursor_is_no_trigger v : table !! CURSOR_LEFT = Some v → False.
Proof. distinct. rewrite table_lookup. intuition congruence. Qed.

Lemma left_killed_by k : CURSOR_LEFT ∈ table !!! k → k = charToKey "4".
Proof.
  distinct. rewrite table_total. intros (v & Hv & Hin).
  apply table_lookup in Hv as [[-> ->]|[[-> ->]|[[-> ->]|[-> ->]]]];
    apply list_elem_of_singleton in Hin; congruence.
Qed.

Lemma left_killed_by_4 : CURSOR_LEFT ∈ table !!! charToKey "4".
Proof.
  apply table_total. exists [CURSOR_LEFT]. split; [|by left].
  apply table_lookup. by left.
Qed.

(** The frame on which the digit key and the cursor key arrive together. *)
Lemma cleanup_digit_and_cursor d :
  (cleanup {[charToKey "4"; CURSOR_LEFT]} d).1 = {[charToKey "4"]}
  ∧ (cleanup {[charToKey "4"; CURSOR_LEFT]} d).2 !! charToKey "4" = Some 0.
Proof.
  destruct (cleanup_keys_spec {[charToKey "4"; CURSOR_LEFT]} d) as [Hd Hk].
  assert (H4 : table !! charToKey "4" = Some [CURSOR_LEFT])
    by (apply table_lookup; by left).
  split.
  - apply set_eq. intros x. rewrite Hk, elem_of_singleton. split.
    + intros (Hx & Hseen & _).
      apply elem_of_union in Hx as [Hx|Hx]; apply elem_of_singleton in Hx; [done|].
      subst x. exfalso. apply (Hseen _ _ H4); [|by left].
      apply elem_of_union_l. by apply elem_of_singleton.
    + intros ->. split; [apply elem_of_union_l; by apply elem_of_singleton|].
      split.
      * intros k v Hv _. exact (trigger_not_killed _ _ _ _ H4 Hv).
      * intros k t _ _. rewrite table_total. intros (v & Hv & Hin).
        exact (trigger_not_killed _ _ _ _ H4 Hv Hin).
  - rewrite Hd, decide_True; [done|]. split; [|by eexists].
    apply elem_of_union_l. by apply elem_of_singleton.
Qed.

(** A frame with the cursor key alone: no timer is restarted, and the key
    passes exactly when the timer of the digit key has passed 10. *)
Lemma cleanup_lone_cursor d t :
  d !! charToKey "4" = Some t →
  (cleanup {[CURSOR_LEFT]} d).2 = d
  ∧ (CURSOR_LEFT ∈ (cleanup {[CURSOR_LEFT]} d).1 ↔ max_suppress_frames < t).
Proof.
  intros Ht. destruct (cleanup_keys_spec {[CURSOR_LEFT]} d) as [Hd Hk].
  assert (Heq : (cleanup {[CURSOR_LEFT]} d).2 = d).
  { apply map_eq. intros k. rewrite Hd, decide_False; [done|].
    intros [Hin [v Hv]]. apply elem_of_singleton in Hin. subst k.
    by eapply cursor_is_no_trigger. }
  split; [done|]. rewrite Hk, Heq. split.
  - intros (_ & _ & Hrecent).
    destruct (Z.lt_ge_cases max_suppress_frames t) as [|Hle]; [done|].
    exfalso. apply (Hrecent _ _ Ht Hle), left_killed_by_4.
  - intros Hgt. split; [by apply elem_of_singleton|]. split.
    + intros k v Hv Hin. apply elem_of_singleton in Hin. subst k.
      exfalso. by eapply cursor_is_no_trigger.
    + intros k t' Hk' Ht' Hin. apply left_killed_by in Hin. subst k.
      rewrite Ht in Hk'. injection Hk' as <-. lia.
Qed.

Lemma new_frame_danger keys st :
  danger_key_frames (frame keys st).2
  = age_timers (cleanup keys (danger_key_frames st)).2.
Proof. done. Qed.

Lemma run_frames_length (frames : list (gset interface_key)) st :
  length (frames_run frames st) = length frames.
Proof.
  revert st. induction frames as [|keys frames IH]; intros st; simpl; [done|].
  by rewrite IH.
Qed.

(** Frames with the cursor key alone, from a state whose digit timer is
    [t]: on the [j]-th of them the timer is [t + j]. *)
Lemma run_lone_cursor (n : nat) st t (j : nat) keys d :
  danger_key_frames st !! charToKey "4" = Some t →
  frames_run (replicate n {[CURSOR_LEFT]}) st !! j = Some (keys, d) →
  d !! charToKey "4" = Some (t + Z.of_nat j)
  ∧ (CURSOR_LEFT ∈ keys ↔ max_suppress_frames < t + Z.of_nat j).
Proof.
  revert st t j. induction n as [|n IH]; intros st t j Ht Hj; [done|].
  cbn [replicate run_frames] in Hj.
  destruct (cleanup_lone_cursor _ _ Ht) as [Hd Hk].
  pose proof (new_frame_danger {[CURSOR_LEFT]} st) as Hnf.
  destruct (cleanup {[CURSOR_LEFT]} (danger_key_frames st)) as [k0 d0].
  cbn [fst snd] in Hd, Hk, Hnf. subst d0.
  destruct j as [|j]; rewrite lookup_cons in Hj.
  - injection Hj as <- <-. rewrite Z.add_0_r. by split.
  - apply (IH _ (t + 1)) in Hj.
    + replace (t + Z.of_nat (S j)) with (t + 1 + Z.of_nat j) by lia. exact Hj.
    + rewrite Hnf. unfold age_timers. by rewrite lookup_fmap, Ht.
Qed.

(** *** Every key set and every timer table *)

Local Abbreviation cursors :=
  [CURSOR_LEFT; CURSOR_RIGHT; CURSOR_UP; CURSOR_DOWN].

Lemma table_values_are_cursors k v x :
  table !! k = Some v → x ∈ v → x ∈ cursors.
Proof.
  unfold to_kill_if_seen. rewrite !lookup_insert_Some, lookup_empty.
  intros [[_ <-]|[_ [[_ <-]|[_ [[_ <-]|[_ [[_ <-]|[_ ?]]]]]]]] Hx; try done;
    apply list_elem_of_singleton in Hx; subst x;
    rewrite !elem_of_cons; tauto.
Qed.

Lemma table_total_are_cursors k x : x ∈ table !!! k → x ∈ cursors.
Proof.
  rewrite table_total. intros (v & Hv & Hx). by eapply table_values_are_cursors.
Qed.

Lemma kill_if_seen_fold_keeps keys d (m : gmap interface_key (list interface_key)) :
  m ⊆ table →
  (map_fold kill_if_seen (keys, d) m).1 ⊆ keys
  ∧ (∀ x, x ∈ keys → x ∉ cursors → x ∈ (map_fold kill_if_seen (keys, d) m).1)
  ∧ (∀ k, (map_fold kill_if_seen (keys, d) m).2 !! k = d !! k
          ∨ (map_fold kill_if_seen (keys, d) m).2 !! k = Some 0).
Proof.
  revert m.
  apply (map_fold_weak_ind
           (fun acc m =>
              m ⊆ table →
              acc.1 ⊆ keys
              ∧ (∀ x, x ∈ keys → x ∉ cursors → x ∈ acc.1)
              ∧ (∀ k, acc.2 !! k = d !! k ∨ acc.2 !! k = Some 0))).
  - intros _. simpl. split; [done|]. split; [done|]. by left.
  - intros i vi m r Hi IH Hsub.
    assert (Htab : table !! i = Some vi).
    { eapply lookup_weaken; [|exact Hsub]. apply lookup_insert_eq. }
    destruct IH as (IH1 & IH2 & IH3).
    { etrans; [|exact Hsub]. by apply insert_subseteq. }
    unfold kill_if_seen. destruct (decide (i ∈ r.1)); [|done]. simpl.
    split; [|split].
    + intros x Hx. apply erase_all_spec in Hx as [Hx _]. by apply IH1.
    + intros x Hx Hc. apply erase_all_spec. split; [by apply IH2|].
      intros Hv. apply Hc. by eapply table_values_are_cursors.
    + intros k. destruct (decide (i = k)) as [<-|Hne].
      * right. apply lookup_insert_eq.
      * rewrite lookup_insert_ne by done. apply IH3.
Qed.

Lemma kill_if_recent_fold_keeps keys d :
  map_fold (kill_if_recent CURSOR_LEFT CURSOR_RIGHT CURSOR_UP CURSOR_DOWN
                           charToKey) keys d ⊆ keys
  ∧ ∀ x, x ∈ keys → x ∉ cursors →
         x ∈ map_fold (kill_if_recent CURSOR_LEFT CURSOR_RIGHT CURSOR_UP
                                      CURSOR_DOWN charToKey) keys d.
Proof.
  apply (map_fold_weak_ind
           (fun r (m : gmap interface_key Z) =>
              r ⊆ keys ∧ ∀ x, x ∈ keys → x ∉ cursors → x ∈ r)).
  - done.
  - intros i t m r Hi [IH1 IH2]. unfold kill_if_recent.
    destruct (t <=? max_suppress_frames); [|done]. split.
    + intros x Hx. apply erase_all_spec in Hx as [Hx _]. by apply IH1.
    + intros x Hx Hc. apply erase_all_spec. split; [by apply IH2|].
      intros Hv. apply Hc. by eapply table_total_are_cursors.
Qed.

Lemma cleanup_keys_subset keys d : (cleanup keys d).1 ⊆ keys.
Proof.
  unfold cleanup_keys. cbn [fst].
  destruct (kill_if_seen_fold_keeps keys d table) as (H1 & _); [done|].
  destruct (kill_if_recent_fold_keeps
              (map_fold kill_if_seen (keys, d) table).1
              (map_fold kill_if_seen (keys, d) table).2) as [H2 _].
  etrans; [exact H2|exact H1].
Qed.


(** No entry but a cursor key's own kills it. *)
Lemma killer_unique k v k' v' x :
  table !! k = Some v → table !! k' = Some v' → x ∈ v → x ∈ v' → k = k'.
Proof.
  distinct. rewrite !table_lookup.
  intros [[-> ->]|[[-> ->]|[[-> ->]|[-> ->]]]]
         [[-> ->]|[[-> ->]|[[-> ->]|[-> ->]]]];
    rewrite !list_elem_of_singleton; congruence.
Qed.

(** One direction at one call: [dk] is the digit key, [ck] the cursor key it
    kills. *)
Lemma cleanup_pair keys d dk ck :
  table !! dk = Some [ck] →
  (ck ∈ (cleanup keys d).1 ↔
     ck ∈ keys ∧ (dk ∉ keys) ∧ ∀ t, d !! dk = Some t → max_suppress_frames < t)
  ∧ (cleanup keys d).2 !! dk = if decide (dk ∈ keys) then Some 0 else d !! dk.
Proof.
  intros Hpair. destruct (cleanup_keys_spec keys d) as [Hd Hk].
  assert (Hdk : (cleanup keys d).2 !! dk
                = if decide (dk ∈ keys) then Some 0 else d !! dk).
  { rewrite Hd. destruct (decide (dk ∈ keys)) as [Hin|Hnin].
    - rewrite decide_True; [done|]. split; [done|by eexists].
    - rewrite decide_False; [done|]. by intros [? _]. }
  split; [|exact Hdk]. rewrite Hk. split.
  - intros (Hin & Hseen & Hrecent). split; [done|].
    assert (Hnk : dk ∉ keys).
    { intros Hdkin. apply (Hseen _ _ Hpair Hdkin). by left. }
    split; [done|]. intros t Ht.
    destruct (Z.lt_ge_cases max_suppress_frames t) as [|Hle]; [done|].
    exfalso. apply (Hrecent dk t); [by rewrite Hdk, decide_False|done|].
    apply table_total. exists [ck]. split; [done|by left].
  - intros (Hin & Hnk & Ht). split; [done|]. split.
    + intros k v Hv Hkin Hck.
      assert (k = dk) as -> by (eapply killer_unique; [exact Hv|exact Hpair|exact Hck|by left]).
      done.
    + intros k t Hkt Hle Hck. apply table_total in Hck as (v & Hv & Hck).
      assert (k = dk) as -> by (eapply killer_unique; [exact Hv|exact Hpair|exact Hck|by left]).
      rewrite Hdk, decide_False in Hkt by done.
      specialize (Ht _ Hkt). lia.
Qed.

Lemma table_pairs dk ck :
  (dk, ck) ∈ [(charToKey "4", CURSOR_LEFT); (charToKey "6", CURSOR_RIGHT);
              (charToKey "8", CURSOR_UP); (charToKey "2", CURSOR_DOWN)] →
  table !! dk = Some [ck].
Proof.
  rewrite !elem_of_cons, table_lookup.
  intros [[= -> ->]|[[= -> ->]|[[= -> ->]|[[= -> ->]|Hn]]]];
    [tauto..|by apply elem_of_nil in Hn].
Qed.

(** X3. One call of [cleanup_keys], for every key set and timer table and
    for each of the four directions: the cursor key stays in the set exactly
    when it is pressed, its digit key is not pressed, and the digit key has
    no timer or a timer above 10; the digit key's timer is 0 afterwards if
    the digit key is pressed and unchanged if not. *)
Theorem cleanup_keys_by_direction keys d dk ck :
  (dk, ck) ∈ [(charToKey "4", CURSOR_LEFT); (charToKey "6", CURSOR_RIGHT);
              (charToKey "8", CURSOR_UP); (charToKey "2", CURSOR_DOWN)] →
  let r := cleanup_keys CURSOR_LEFT CURSOR_RIGHT CURSOR_UP CURSOR_DOWN charToKey
                        keys d in
  (ck ∈ r.1 ↔ ck ∈ keys ∧ (dk ∉ keys) ∧ ∀ t, d !! dk = Some t → 10 < t)
  ∧ r.2 !! dk = (if decide (dk ∈ keys) then Some 0 else d !! dk)
  ∧ (dk ∈ r.1 ↔ dk ∈ keys).
Proof.
  intros Hp r. subst r. apply table_pairs in Hp.
  destruct (cleanup_pair keys d dk ck Hp) as [H1 H2].
  split; [exact H1|]. split; [exact H2|]. split.
  - apply cleanup_keys_subset.
  - intros Hin. apply (proj2 (cleanup_keys_spec keys d)). split; [done|]. split.
    + intros k v Hv _. exact (trigger_not_killed _ _ _ _ Hp Hv).
    + intros k t _ _. rewrite table_total. intros (v & Hv & Hx).
      exact (trigger_not_killed _ _ _ _ Hp Hv Hx).
Qed.

(** The translator over any sequence of frames, one direction: the third
    part accounts for a timer the state already holds. *)
Lemma run_pair (frames : list (gset interface_key)) st dk ck (j : nat) keys d :
  table !! dk = Some [ck] →
  frames_run frames st !! j = Some (keys, d) →
  ck ∈ keys ↔
    (∃ ks, frames !! j = Some ks ∧ ck ∈ ks)
    ∧ (∀ (i : nat) ks, (i ≤ j ≤ i + 10)%nat → frames !! i = Some ks → dk ∉ ks)
    ∧ (∀ t, danger_key_frames st !! dk = Some t →
            (∃ (i : nat) ks, (i < j)%nat ∧ frames !! i = Some ks ∧ dk ∈ ks)
            ∨ 10 < t + Z.of_nat j).
Proof.
  intros Hp. revert st j.
  induction frames as [|ks0 rest IH]; intros st j Hj; [done|].
  cbn [run_frames] in Hj.
  destruct (cleanup_pair ks0 (danger_key_frames st) dk ck Hp) as [Hk Hd].
  pose proof (new_frame_danger ks0 st) as Hnf.
  destruct (cleanup ks0 (danger_key_frames st)) as [k0 d0].
  cbn [fst snd] in Hk, Hd, Hnf.
  destruct j as [|j]; rewrite lookup_cons in Hj.
  - injection Hj as <- <-. rewrite Hk. unfold max_suppress_frames. split.
    + intros (Hin & Hnk & Ht). split; [by exists ks0|]. split.
      * intros i ks Hi Hks. assert (i = 0%nat) as -> by lia.
        rewrite lookup_cons in Hks. by injection Hks as <-.
      * intros t Hdt. right. specialize (Ht _ Hdt). lia.
    + intros ((ks & Hks & Hin) & Hwin & Ht).
      rewrite lookup_cons in Hks. injection Hks as <-.
      split; [done|]. split.
      * apply (Hwin 0%nat ks0); [lia|done].
      * intros t Hdt. destruct (Ht _ Hdt) as [(i & ? & ? & _)|?]; lia.
  - rewrite (IH _ _ Hj). rewrite Hnf. unfold age_timers.
    rewrite lookup_fmap, Hd. rewrite !lookup_cons. split.
    + intros (Hin & Hwin & Ht). split; [done|].
      destruct (decide (dk ∈ ks0)) as [Hpress|Hnot]; cbn [fmap option_fmap option_map] in Ht.
      * assert (10 < Z.of_nat (S j)) as Hfar.
        { destruct (Ht 1 eq_refl) as [(i & ks & Hi & Hks & Hdk)|?]; [|lia].
          destruct (decide (j ≤ i + 10)%nat) as [Hle|]; [|lia].
          exfalso. apply (Hwin i ks); [lia|done|done]. }
        split.
        -- intros [|i] ks Hi Hks; [lia|]. apply (Hwin i ks); [lia|done].
        -- intros t _. left. exists 0%nat, ks0. split; [lia|]. done.
      * split.
        -- intros [|i] ks Hi Hks.
           ++ by injection Hks as <-.
           ++ apply (Hwin i ks); [lia|done].
        -- intros t Hdt. rewrite Hdt in Ht. cbn in Ht.
           destruct (Ht (t + 1) eq_refl) as [(i & ks & Hi & Hks & Hdk)|?]; [|right; lia].
           left. exists (S i), ks. split; [lia|]. done.
    + intros (Hin & Hwin & Ht). split; [done|]. split.
      * intros i ks Hi Hks. apply (Hwin (S i) ks); [lia|done].
      * intros t' Hdt'.
        destruct (decide (dk ∈ ks0)) as [Hpress|Hnot].
        -- injection Hdt' as <-. right.
           destruct (decide (S j ≤ 10)%nat) as [Hle|]; [|lia].
           exfalso. apply (Hwin 0%nat ks0); [lia|done|done].
        -- destruct (danger_key_frames st !! dk) as [t|] eqn:Hdt; [|done].
           injection Hdt' as <-.
           destruct (Ht t eq_refl) as [(i & ks & Hi & Hks & Hdk)|?]; [|right; lia].
           destruct i as [|i]; [by injection Hks as <-|].
           left. exists i, ks. split; [lia|]. done.
Qed.

End InputFacts.

(** ** Draw-command interpreter *)

Lemma drawTriangle_ok ColorConvertU32ToFloat4 (p0 p1 p2 : ImVec2) (c : Z) (s : Screen) :
  ∃ s', drawTriangle ColorConvertU32ToFloat4 p0 p1 p2 c s = Ok s'.
Proof.
  unfold drawTriangle, drawTriangle_cells.
  destruct (triangle_candidates_ok p0 p1 p2) as [cand ->]. simpl. eauto.
Qed.

Lemma Qlt_bool_iff (a b : Q) : Qlt_bool a b = true ↔ (a < b)%Q.
Proof.
  unfold Qlt_bool. rewrite negb_true_iff. split.
  - intros Hf. apply Qnot_le_lt. intros Hle.
    apply Qle_bool_iff in Hle. congruence.
  - intros Hlt. destruct (Qle_bool b a) eqn:Hle; [|done].
    apply Qle_bool_iff in Hle. exfalso. by apply (Qlt_not_le a b).
Qed.

Lemma Qneq_bool_false (a b : Q) : Qneq_bool a b = false ↔ (a == b)%Q.
Proof. unfold Qneq_bool. rewrite negb_false_iff. apply Qeq_bool_iff. Qed.

(** The glyph test fails exactly when the three texture coordinates are one
    coordinate. *)
Lemma uv_differ_false (a b c : ImVec2) :
  uv_differ a b c = false ↔
    (vx a == vx b ∧ vx a == vx c ∧ vy a == vy b ∧ vy a == vy c)%Q.
Proof.
  unfold uv_differ. rewrite !orb_false_iff, !Qneq_bool_false. split.
  - tauto.
  - intros (H1 & H2 & H3 & H4). repeat split; try done.
    + by rewrite <- H1, <- H2.
    + by rewrite <- H3, <- H4.
Qed.

Section InterpreterFacts.
Variable ColorConvertU32ToFloat4 : Z -> ImVec4.
Variable UTF2DF : string -> string.

Local Abbreviation body := (walk_body ColorConvertU32ToFloat4 UTF2DF).
Local Abbreviation glyph := (paint_glyph ColorConvertU32ToFloat4 UTF2DF).

Implicit Types (cmd_list : ImDrawList) (pcmd : ImDrawCmd) (clip : ImVec4)
  (ws : walk_state) (i : nat).

Lemma walk_body_fill cmd_list pcmd clip i ws v0 v1 v2 :
  triangle_at cmd_list (IdxOffset pcmd + i) = Ok (v0, v1, v2) →
  uv_differ (uv v0) (uv v1) (uv v2) = false →
  ∃ s', drawTriangle ColorConvertU32ToFloat4 (pos v0) (pos v1) (pos v2)
                     (col v0) (scr ws) = Ok s'
        ∧ body cmd_list pcmd clip i ws
          = Ok ((i + 3)%nat,
                mkWalk (lastCharX ws) (lastCharY ws) s'
                       (calls ws ++ [CallDrawTriangle (pos v0) (pos v1) (pos v2)
                                                      (col v0)])).
Proof.
  intros Ht Huv.
  destruct (drawTriangle_ok ColorConvertU32ToFloat4 (pos v0) (pos v1) (pos v2)
              (col v0) (scr ws)) as [s' Hs'].
  exists s'. split; [done|].
  unfold walk_body. rewrite Ht. cbn [res_bind]. rewrite Huv.
  unfold fill_triangle. by rewrite Hs'.
Qed.

Lemma walk_body_glyph cmd_list pcmd clip i ws v0 v1 v2 vv0 vv1 vv2 :
  triangle_at cmd_list (IdxOffset pcmd + i) = Ok (v0, v1, v2) →
  uv_differ (uv v0) (uv v1) (uv v2) = true →
  triangle_at cmd_list (IdxOffset pcmd + i + 3) = Ok (vv0, vv1, vv2) →
  body cmd_list pcmd clip i ws
  = Ok ((i + 3 + 3)%nat, glyph clip v0 v1 v2 vv0 vv1 vv2 ws).
Proof.
  intros Ht Huv Htt. unfold walk_body.
  rewrite Ht. cbn [res_bind]. rewrite Huv, Htt. done.
Qed.

Lemma at_index_fault {A} (v : list A) (n : nat) (f : fault) :
  at_index v n = Fault f → f = OutOfRange.
Proof. unfold at_index. destruct (v !! n); congruence. Qed.

Lemma triangle_at_fault cmd_list (k : nat) (f : fault) :
  triangle_at cmd_list k = Fault f → f = OutOfRange.
Proof.
  unfold triangle_at.
  repeat (match goal with
          | |- context [at_index ?v ?n] =>
            let E := fresh "E" in
            destruct (at_index v n) eqn:E;
            [cbn [res_bind]|apply at_index_fault in E; cbn [res_bind]; congruence]
          end).
  done.
Qed.

(** A turn of the loop faults only on an index out of range, and otherwise
    advances [i]. *)
Lemma walk_body_progress cmd_list pcmd clip i ws :
  match body cmd_list pcmd clip i ws with
  | Ok r => (i < r.1)%nat
  | Fault f => f = OutOfRange
  end.
Proof.
  unfold walk_body.
  destruct (triangle_at cmd_list (IdxOffset pcmd + i)) as [[[v0 v1] v2]|f] eqn:Ht;
    cbn [res_bind]; [|by eapply triangle_at_fault].
  destruct (uv_differ (uv v0) (uv v1) (uv v2)).
  - destruct (triangle_at cmd_list (IdxOffset pcmd + i + 3))
      as [[[vv0 vv1] vv2]|f] eqn:Htt; cbn [res_bind]; [|by eapply triangle_at_fault].
    simpl. lia.
  - unfold fill_triangle.
    destruct (drawTriangle_ok ColorConvertU32ToFloat4 (pos v0) (pos v1) (pos v2)
                (col v0) (scr ws)) as [s' ->].
    simpl. lia.
Qed.

(** [ElemCount] turns are enough: the walk over a command never outruns its
    fuel. *)
Lemma walk_fuel_enough (fuel : nat) cmd_list pcmd clip i ws :
  (ElemCount pcmd ≤ i + fuel)%nat →
  walk ColorConvertU32ToFloat4 UTF2DF fuel cmd_list pcmd clip i ws
  ≠ Fault OutOfFuel.
Proof.
  revert i ws. induction fuel as [|fuel IH]; intros i ws Hle; cbn [walk].
  - destruct (Nat.ltb_spec i (ElemCount pcmd)); [lia|done].
  - destruct (Nat.ltb_spec i (ElemCount pcmd)); [|done].
    pose proof (walk_body_progress cmd_list pcmd clip i ws) as Hp.
    destruct (body cmd_list pcmd clip i ws) as [[i' ws']|f]; cbn [res_bind].
    + apply IH. cbn [fst] in *. lia.
    + congruence.
Qed.

Lemma paint_glyph_last_call clip v0 v1 v2 vv0 vv1 vv2 ws :
  let ws' := glyph clip v0 v1 v2 vv0 vv1 vv2 ws in
  ∃ call, calls ws' = calls ws ++ [call]
          ∧ glyph_cell call = Some (Qfloor (lastCharX ws'), Qfloor (lastCharY ws')).
Proof.
  simpl. unfold paint_glyph.
  destruct (outside_clip _ _ _); simpl; eexists; split; done.
Qed.

Lemma nudge_near (lastX lastY : Q) (xy : Q * Q) :
  (Qabs (xy.2 - lastY) < 1 # 2)%Q → (Qabs (xy.1 - lastX) < 1 # 2)%Q →
  nudge lastX lastY xy = ((lastX + 1)%Q, lastY).
Proof.
  intros Hy Hx. unfold nudge.
  apply Qlt_bool_iff in Hy, Hx. by rewrite Hy, Hx.
Qed.

Lemma nudge_far (lastX lastY : Q) (xy : Q * Q) :
  ¬ ((Qabs (xy.2 - lastY) < 1 # 2)%Q ∧ (Qabs (xy.1 - lastX) < 1 # 2)%Q) →
  nudge lastX lastY xy = xy.
Proof.
  intros Hn. unfold nudge.
  destruct (Qlt_bool (Qabs (xy.2 - lastY)) (1 # 2)) eqn:Hy; [|done].
  destruct (Qlt_bool (Qabs (xy.1 - lastX)) (1 # 2)) eqn:Hx; [|done].
  exfalso. apply Hn. by rewrite <- !Qlt_bool_iff.
Qed.


End InterpreterFacts.



(** C3 does not hold of the code: the solid triangle of
    [fill_outside_clip] lies wholly outside its command's clip rectangle
    [0,2) x [0,2), and [draw_frame] paints its six cells all the same: the
    triangle reaches [drawTriangle] without the rectangle. *)
Theorem solid_fill_ignores_clip_rectangle :
  ∃ s,
    draw_frame colour_in_x utf_identity fill_outside_clip blank_screen
    = Ok (s, [CallDrawTriangle (mkVec2 5 5) (mkVec2 7 5) (mkVec2 5 7) 7])
    ∧ Forall (fun c => outside_clip small_clip c.1 c.2 = true
                       ∧ readTile c.1 c.2 blank_screen = blank_pen
                       ∧ readTile c.1 c.2 s = mkPen " " 7 0)
             [(5, 5); (6, 5); (7, 5); (5, 6); (6, 6); (5, 7)].
Proof.
  eexists. split.
  - vm_compute. reflexivity.
  - repeat (apply Forall_cons; split; [by vm_compute|]). apply Forall_nil_2.
Qed.





(** ** Session state *)

Section SessionFacts.
Context `{Countable interface_key}.
Implicit Types (w : @world interface_key _ _) (keys : option (gset interface_key)).

(** C9. Whatever context is current, [activate] makes the session's own
    context current, and [deactivate] after it makes current again exactly
    the context that was current before [activate]. The save is one level
    deep: a second [activate] before the [deactivate] overwrites the saved
    context, so two [deactivate]s leave the session's context current. *)
Theorem activate_deactivate_restores w :
  GImGui (activate w) = ctx (ui w)
  ∧ GImGui (deactivate (activate w)) = GImGui w
  ∧ ctx (ui (deactivate (activate w))) = ctx (ui w)
  ∧ GImGui (deactivate (deactivate (activate (activate w)))) = ctx (ui w).
Proof. destruct w as [st cur]; destruct st; repeat split. Qed.

Lemma on_feed_end_suppressed keys w :
  suppress_next_keyboard_passthrough (ui w) = true →
  (on_feed_end keys w).1 = false.
Proof.
  intros Hs. unfold on_feed_end; simpl. rewrite Hs.
  destruct keys; [|done]. by rewrite andb_false_r.
Qed.

Lemma on_feed_end_clears keys w :
  suppress_next_keyboard_passthrough (ui (on_feed_end keys w).2) = false
  ∧ should_pass_keyboard_up (ui (on_feed_end keys w).2) = false.
Proof. done. Qed.

(** Without a suppression, and with no key declared suppressed, the keys
    requested by [feed_upwards] do go up. *)
Lemma on_feed_end_passes w (ks : gset interface_key) :
  suppress_next_keyboard_passthrough (ui w) = false →
  suppressed_keys (ui w) = ∅ →
  (on_feed_end (Some ks) (feed_upwards w)).1 = true.
Proof.
  intros Hs He. unfold on_feed_end, feed_upwards, skip_feed. simpl.
  rewrite Hs, He. simpl. by rewrite map_fold_empty.
Qed.

(** C10. [suppress_next_mouse_feed_upwards] leaves the process in the state
    [suppress_next_keyboard_feed_upwards] leaves it in: it sets the keyboard
    flag and nothing of its own. After either call, before or after a
    [feed_upwards], the next [on_feed_end] returns false and leaves both
    flags cleared. *)
Theorem mouse_suppression_sets_keyboard_flag w keys :
  suppress_next_mouse_feed_upwards w = suppress_next_keyboard_feed_upwards w
  ∧ suppress_next_keyboard_passthrough (ui (suppress_next_mouse_feed_upwards w)) = true
  ∧ Forall (fun w1 =>
              (on_feed_end keys w1).1 = false
              ∧ suppress_next_keyboard_passthrough (ui (on_feed_end keys w1).2) = false
              ∧ should_pass_keyboard_up (ui (on_feed_end keys w1).2) = false)
           [ feed_upwards (suppress_next_mouse_feed_upwards w);
             suppress_next_mouse_feed_upwards (feed_upwards w);
             suppress_next_mouse_feed_upwards w;
             feed_upwards (suppress_next_keyboard_feed_upwards w);
             suppress_next_keyboard_feed_upwards (feed_upwards w);
             suppress_next_keyboard_feed_upwards w ]
  ∧ should_pass_keyboard_up (ui (feed_upwards (suppress_next_mouse_feed_upwards w)))
    = true.
Proof.
  split; [done|]. split; [done|]. split; [|done].
  repeat (apply Forall_cons; split;
          [split; [by apply on_feed_end_suppressed|apply on_feed_end_clears]|]).
  apply Forall_nil_2.
Qed.
End SessionFacts.

(** ** Window ordering reconciler *)

Section ReconcilerFacts.
Context `{Countable window}.
Implicit Types (order current finished : list window) (c : @ImGuiContext window).

Lemma push_unclaimed_acc (s : gset window) current finished :
  foldl (fun finished win =>
           if decide (win ∈ s) then finished else finished ++ [win])
        finished current
  = finished ++ filter (fun win => win ∉ s) current.
Proof.
  revert finished. induction current as [|win current IH]; intros finished; simpl.
  - by rewrite app_nil_r.
  - rewrite IH. rewrite filter_cons. destruct (decide (win ∈ s)).
    + by rewrite decide_False by (intros Hn; by apply Hn).
    + rewrite decide_True by done. by rewrite <- app_assoc.
Qed.

Lemma push_unclaimed_filter order current :
  push_unclaimed (list_to_set order) current
  = filter (fun win => win ∉ order) current.
Proof.
  unfold push_unclaimed. rewrite push_unclaimed_acc. simpl.
  apply list_filter_iff. intros win. by rewrite elem_of_list_to_set.
Qed.

Lemma push_all_app finished order : push_all finished order = finished ++ order.
Proof.
  unfold push_all. revert finished.
  induction order as [|win order IH]; intros finished; simpl.
  - by rewrite app_nil_r.
  - rewrite IH. by rewrite <- app_assoc.
Qed.

Lemma rearrange_windows display_order focus_order c :
  Windows (imgui_rearrange_internals display_order focus_order c)
  = filter (fun win => win ∉ display_order) (Windows c) ++ display_order.
Proof.
  unfold imgui_rearrange_internals; simpl.
  by rewrite push_all_app, push_unclaimed_filter.
Qed.

Lemma rearrange_focus display_order focus_order c :
  WindowsFocusOrder (imgui_rearrange_internals display_order focus_order c)
  = filter (fun win => win ∉ focus_order) (WindowsFocusOrder c) ++ focus_order.
Proof.
  unfold imgui_rearrange_internals; simpl.
  by rewrite push_all_app, push_unclaimed_filter.
Qed.

(** When the claimed windows are windows of the context, listed once each,
    the splice only permutes the display list. *)
Lemma rearrange_permutation display_order focus_order c :
  NoDup display_order → display_order ⊆ Windows c → NoDup (Windows c) →
  Windows (imgui_rearrange_internals display_order focus_order c) ≡ₚ Windows c.
Proof.
  intros Hnd Hsub Hndw. rewrite rearrange_windows.
  apply NoDup_Permutation; [|done|].
  - apply NoDup_app. split; [by apply NoDup_filter|]. split; [|done].
    intros x Hx Hx'. apply list_elem_of_filter in Hx as [Hx _]. by apply Hx.
  - intros x. rewrite elem_of_app, list_elem_of_filter. split.
    + intros [[_ ?]|?]; [done|by apply Hsub].
    + intros Hx. destruct (decide (x ∈ display_order)); [by right|by left].
Qed.

Lemma pull_acc (s : gset window) current result :
  foldl (fun result win =>
           if decide (win ∈ s) then result ++ [win] else result)
        result current
  = result ++ filter (fun win => win ∈ s) current.
Proof.
  revert result. induction current as [|win current IH]; intros result; simpl.
  - by rewrite app_nil_r.
  - rewrite IH, filter_cons. destruct (decide (win ∈ s)); [|done].
    by rewrite <- app_assoc.
Qed.

Lemma pull_filter (windows current : list window) :
  imgui_pull_from_context windows current
  = filter (fun win => win ∈ windows) current.
Proof.
  unfold imgui_pull_from_context. rewrite pull_acc. simpl.
  apply list_filter_iff. intros win. by rewrite elem_of_list_to_set.
Qed.

(** X5. With a library sort that only permutes its argument, reconciling a
    layer permutes the display list and leaves the windows outside the
    collected set in the order they had. *)
Lemma reconcile_keeps_unclaimed_order (SortWindows : list window → list window)
    (unsorted_windows : list window) c :
  (∀ l, SortWindows l ≡ₚ l) → NoDup (Windows c) →
  Windows (reconcile SortWindows unsorted_windows c) ≡ₚ Windows c
  ∧ filter (fun win => win ∉ unsorted_windows)
           (Windows (reconcile SortWindows unsorted_windows c))
    = filter (fun win => win ∉ unsorted_windows) (Windows c).
Proof.
  intros Hsort Hnd. unfold reconcile. rewrite !pull_filter.
  set (pulled := filter (fun win => win ∈ unsorted_windows) (Windows c)).
  assert (Hin : ∀ x, x ∈ SortWindows pulled ↔ x ∈ unsorted_windows ∧ x ∈ Windows c).
  { intros x. rewrite (Hsort pulled). unfold pulled.
    by rewrite list_elem_of_filter. }
  split.
  - apply rearrange_permutation; [|intros x Hx; by apply Hin in Hx as [_ ?]|done].
    rewrite (Hsort pulled). by apply NoDup_filter.
  - rewrite rearrange_windows, filter_app, list_filter_filter.
    rewrite (filter_none _ (SortWindows pulled))
      by (intros x Hx Hn; apply Hin in Hx as [? _]; by apply Hn).
    rewrite app_nil_r. apply list_filter_iff. intros x. split; [tauto|].
    intros Hx. split; [done|]. intros Hx'. apply Hin in Hx' as [? _]. by apply Hx.
Qed.
End ReconcilerFacts.

(** C5. The splice leaves, in the display list and in the focus list, first
    the windows that were not claimed, in the order they had, and after them
    (the end of the list is the front of the display) the claimed windows in
    the order given; so the display order A, B, C, D with the claimed
    windows sorted to D, B becomes A, C, D, B. *)
Theorem splice_moves_claimed_to_front :
  (∀ `{Countable window} (display_order focus_order : list window)
     (c : ImGuiContext),
     let c' := imgui_rearrange_internals display_order focus_order c in
     Windows c'
     = filter (fun win => win ∉ display_order) (Windows c) ++ display_order
     ∧ WindowsFocusOrder c'
       = filter (fun win => win ∉ focus_order) (WindowsFocusOrder c)
         ++ focus_order
     ∧ filter (fun win => win ∉ display_order) (Windows c')
       = filter (fun win => win ∉ display_order) (Windows c))
  ∧ Windows (imgui_rearrange_internals ["D"; "B"]%string ["D"; "B"]%string
               (mkContext ["A"; "B"; "C"; "D"]%string
                          ["A"; "B"; "C"; "D"]%string))
    = ["A"; "C"; "D"; "B"]%string.
Proof.
  split; [|by vm_compute].
  intros window ? ? display_order focus_order c c'. subst c'.
  rewrite rearrange_windows, rearrange_focus. repeat split.
  rewrite filter_app, list_filter_filter.
  rewrite (filter_none _ display_order) by (intros x Hx Hn; by apply Hn).
  rewrite app_nil_r. apply list_filter_iff. intros x; tauto.
Qed.

(** ** More on the draw-command interpreter *)

Lemma res_foldl_outcome {A B} (I : A → Prop) (E : fault → Prop)
    (f : A → B → res A) (l : list B) (a : A) :
  (∀ a b, I a → match f a b with Ok a' => I a' | Fault e => E e end) →
  I a → match res_foldl f a l with Ok a' => I a' | Fault e => E e end.
Proof.
  intros Hf. revert a. induction l as [|b l IH]; intros a Ha; cbn [res_foldl].
  - done.
  - specialize (Hf a b Ha). destruct (f a b) as [a1|e]; cbn [res_bind]; [|done].
    by apply IH.
Qed.

Lemma drawTriangle_dim ColorConvertU32ToFloat4 (p0 p1 p2 : ImVec2) (c : Z)
    (s s' : Screen) :
  drawTriangle ColorConvertU32ToFloat4 p0 p1 p2 c s = Ok s' → dim s' = dim s.
Proof.
  unfold drawTriangle.
  destruct (drawTriangle_cells (getWindowSize s) p0 p1 p2); cbn [res_bind]; [|done].
  intros [= <-]. apply paint_cells_dim.
Qed.

Lemma triangle_at_Ok cmd_list (k : nat) v0 v1 v2 :
  triangle_at cmd_list k = Ok (v0, v1, v2) →
  (k + 2 < length (IdxBuffer cmd_list))%nat
  ∧ v0 ∈ VtxBuffer cmd_list ∧ v1 ∈ VtxBuffer cmd_list ∧ v2 ∈ VtxBuffer cmd_list.
Proof.
  unfold triangle_at, at_index.
  destruct (IdxBuffer cmd_list !! (k + 0)%nat) as [i0|]; [|done]. cbn [res_bind].
  destruct (IdxBuffer cmd_list !! (k + 1)%nat) as [i1|]; [|done]. cbn [res_bind].
  destruct (IdxBuffer cmd_list !! (k + 2)%nat) as [i2|] eqn:E2; [|done].
  cbn [res_bind].
  destruct (VtxBuffer cmd_list !! i0) as [w0|] eqn:E3; [|done]. cbn [res_bind].
  destruct (VtxBuffer cmd_list !! i1) as [w1|] eqn:E4; [|done]. cbn [res_bind].
  destruct (VtxBuffer cmd_list !! i2) as [w2|] eqn:E5; [|done]. cbn [res_bind].
  intros [= <- <- <-]. split; [by apply lookup_lt_Some in E2|].
  split; [|split]; by eapply list_elem_of_lookup_2.
Qed.

Section FrameFacts.
Variable ColorConvertU32ToFloat4 : Z -> ImVec4.
Variable UTF2DF : string -> string.

Implicit Types (cmd_list : ImDrawList) (pcmd : ImDrawCmd) (clip : ImVec4)
  (ws : walk_state) (i : nat).

Lemma walk_body_dim cmd_list pcmd clip i ws :
  match walk_body ColorConvertU32ToFloat4 UTF2DF cmd_list pcmd clip i ws with
  | Ok r => (i < r.1)%nat ∧ dim (scr r.2) = dim (scr ws)
  | Fault f => f = OutOfRange
  end.
Proof.
  unfold walk_body.
  destruct (triangle_at cmd_list (IdxOffset pcmd + i)) as [[[v0 v1] v2]|f] eqn:Ht;
    cbn [res_bind]; [|by eapply triangle_at_fault].
  destruct (uv_differ (uv v0) (uv v1) (uv v2)).
  - destruct (triangle_at cmd_list (IdxOffset pcmd + i + 3))
      as [[[vv0 vv1] vv2]|f] eqn:Htt; cbn [res_bind]; [|by eapply triangle_at_fault].
    cbn [fst snd]. split; [lia|]. unfold paint_glyph.
    destruct (outside_clip _ _ _); cbn [scr]; [done|apply paintTile_dim].
  - unfold fill_triangle.
    destruct (drawTriangle ColorConvertU32ToFloat4 (pos v0) (pos v1) (pos v2)
                (col v0) (scr ws)) as [s'|f] eqn:Hd; cbn [res_bind].
    + cbn [fst snd scr]. split; [lia|]. by eapply drawTriangle_dim.
    + destruct (drawTriangle_ok ColorConvertU32ToFloat4 (pos v0) (pos v1) (pos v2)
                  (col v0) (scr ws)) as [s' Hs']. congruence.
Qed.

Lemma walk_dim (fuel : nat) cmd_list pcmd clip i ws :
  (ElemCount pcmd ≤ i + fuel)%nat →
  match walk ColorConvertU32ToFloat4 UTF2DF fuel cmd_list pcmd clip i ws with
  | Ok ws' => dim (scr ws') = dim (scr ws)
  | Fault f => f = OutOfRange
  end.
Proof.
  revert i ws. induction fuel as [|fuel IH]; intros i ws Hle; cbn [walk].
  - destruct (Nat.ltb_spec i (ElemCount pcmd)); [lia|done].
  - destruct (Nat.ltb_spec i (ElemCount pcmd)); [|done].
    pose proof (walk_body_dim cmd_list pcmd clip i ws) as Hp.
    destruct (walk_body ColorConvertU32ToFloat4 UTF2DF cmd_list pcmd clip i ws)
      as [[i' ws']|f]; cbn [res_bind]; [|done].
    cbn [fst snd] in *. destruct Hp as [Hi Hd].
    specialize (IH i' ws'). rewrite Hd in IH. apply IH. lia.
Qed.



(** X8. The glyph branch reads the three indices after its triangle
    without looking at the command's element count or at the size of the
    index buffer: on a triangle with differing texture coordinates that is
    among the last three indices of the buffer, the walk stops with an
    out-of-range read and paints nothing. *)
Theorem unpaired_glyph_triangle_faults
    (fuel : nat) cmd_list pcmd clip i ws v0 v1 v2 :
  (i < ElemCount pcmd)%nat →
  triangle_at cmd_list (IdxOffset pcmd + i) = Ok (v0, v1, v2) →
  uv_differ (uv v0) (uv v1) (uv v2) = true →
  (length (IdxBuffer cmd_list) < IdxOffset pcmd + i + 6)%nat →
  walk ColorConvertU32ToFloat4 UTF2DF (S fuel) cmd_list pcmd clip i ws
  = Fault OutOfRange.
Proof.
  intros Hi Ht Huv Hlen. cbn [walk].
  rewrite (proj2 (Nat.ltb_lt i (ElemCount pcmd))) by done.
  unfold walk_body. rewrite Ht. cbn [res_bind]. rewrite Huv.
  destruct (triangle_at cmd_list (IdxOffset pcmd + i + 3))
    as [[[vv0 vv1] vv2]|f] eqn:Htt; cbn [res_bind].
  - apply triangle_at_Ok in Htt as [Hlt _]. lia.
  - apply triangle_at_fault in Htt as ->. done.
Qed.

(** X9. A command whose vertices all carry one texture coordinate is a
    command of solid fills only, and the walk over it does not depend on
    the clip rectangle: under any two rectangles it makes the same calls
    and leaves the same display. *)
Theorem fills_ignore_clip_rectangle
    (fuel : nat) cmd_list pcmd clip clip' i ws (uv0 : ImVec2) :
  Forall (fun v => (vx (uv v) == vx uv0 ∧ vy (uv v) == vy uv0)%Q)
         (VtxBuffer cmd_list) →
  walk ColorConvertU32ToFloat4 UTF2DF fuel cmd_list pcmd clip i ws
  = walk ColorConvertU32ToFloat4 UTF2DF fuel cmd_list pcmd clip' i ws.
Proof.
  intros Huv. rewrite Forall_forall in Huv.
  assert (Hbody : ∀ i ws,
             walk_body ColorConvertU32ToFloat4 UTF2DF cmd_list pcmd clip i ws
             = walk_body ColorConvertU32ToFloat4 UTF2DF cmd_list pcmd clip' i ws).
  { intros j ws0. unfold walk_body.
    destruct (triangle_at cmd_list (IdxOffset pcmd + j)) as [[[v0 v1] v2]|f] eqn:Ht;
      cbn [res_bind]; [|done].
    apply triangle_at_Ok in Ht as (_ & H0 & H1 & H2).
    destruct (Huv _ H0) as [H0x H0y]. destruct (Huv _ H1) as [H1x H1y].
    destruct (Huv _ H2) as [H2x H2y].
    assert (uv_differ (uv v0) (uv v1) (uv v2) = false) as ->; [|done].
    apply uv_differ_false. rewrite H0x, H0y, H1x, H1y, H2x, H2y. done. }
  revert i ws. induction fuel as [|fuel IH]; intros i ws; cbn [walk]; [done|].
  destruct (i <? ElemCount pcmd)%nat; [|done]. rewrite Hbody.
  destruct (walk_body ColorConvertU32ToFloat4 UTF2DF cmd_list pcmd clip' i ws)
    as [[i' ws']|f]; cbn [res_bind]; [apply IH|done].
Qed.
End FrameFacts.

(** ** More on the rasterizer *)

Lemma xr_get_set (xrange xr' : list Z) (i v j : Z) :
  xr_set xrange i v = Ok xr' →
  xr_get xr' j = if decide (j = i) then Ok v else xr_get xrange j.
Proof.
  unfold xr_set. destruct (Z.leb_spec 0 i); [|done].
  destruct (Z.ltb_spec i (Z.of_nat (length xrange))); [|done].
  cbn [andb]. intros [= <-]. unfold xr_get, at_index.
  destruct (decide (j = i)) as [->|Hne].
  - destruct (Z.ltb_spec i 0); [lia|].
    by rewrite list_lookup_insert_eq by lia.
  - destruct (Z.ltb_spec j 0); [done|].
    by rewrite list_lookup_insert_ne by lia.
Qed.

(** One visit of [ScanLine]: on a row of the scan the interval grows to
    hold [x]; nothing else changes. *)
Lemma widen_row_spec (ymax x y : Z) (xrange xr' : list Z) :
  widen_row ymax x y xrange = Ok xr' →
  if decide (0 ≤ y < ymax) then
    ∃ lo hi,
      xr_get xrange (2 * y + 0) = Ok lo ∧ xr_get xrange (2 * y + 1) = Ok hi
      ∧ xr_get xr' (2 * y + 0) = Ok (Z.min x lo)
      ∧ xr_get xr' (2 * y + 1) = Ok (Z.max x hi)
      ∧ ∀ j, j ≠ 2 * y + 0 → j ≠ 2 * y + 1 → xr_get xr' j = xr_get xrange j
  else xr' = xrange.
Proof.
  unfold widen_row. destruct (decide (0 ≤ y < ymax)) as [Hy|Hy].
  - rewrite (proj2 (Z.leb_le 0 y)), (proj2 (Z.ltb_lt y ymax)) by lia.
    cbn [andb].
    destruct (xr_get xrange (2 * y + 0)) as [lo|] eqn:Hlo; [|done].
    cbn [res_bind].
    destruct (Z.ltb_spec x lo) as [Hx|Hx].
    + destruct (xr_set xrange (2 * y + 0) x) as [xr0|] eqn:H0; [|done].
      cbn [res_bind]. pose proof (fun j => xr_get_set _ _ _ _ j H0) as G0.
      destruct (xr_get xr0 (2 * y + 1)) as [hi|] eqn:Hhi; [|done].
      cbn [res_bind]. rewrite G0, decide_False in Hhi by lia.
      destruct (Z.ltb_spec hi x) as [Hh|Hh].
      * intros H1. pose proof (fun j => xr_get_set _ _ _ _ j H1) as G1.
        exists lo, hi. split; [done|]. split; [done|].
        split; [|split].
        -- rewrite G1, decide_False, G0, decide_True by lia. f_equal. lia.
        -- rewrite G1, decide_True by lia. f_equal. lia.
        -- intros j ? ?. by rewrite G1, decide_False, G0, decide_False by lia.
      * intros [= <-]. exists lo, hi. split; [done|]. split; [done|].
        split; [|split].
        -- rewrite G0, decide_True by lia. f_equal. lia.
        -- rewrite G0, decide_False, Hhi by lia. f_equal. lia.
        -- intros j ? ?. by rewrite G0, decide_False by lia.
    + cbn [res_bind].
      destruct (xr_get xrange (2 * y + 1)) as [hi|] eqn:Hhi; [|done].
      cbn [res_bind].
      destruct (Z.ltb_spec hi x) as [Hh|Hh].
      * intros H1. pose proof (fun j => xr_get_set _ _ _ _ j H1) as G1.
        exists lo, hi. split; [done|]. split; [done|].
        split; [|split].
        -- rewrite G1, decide_False, Hlo by lia. f_equal. lia.
        -- rewrite G1, decide_True by lia. f_equal. lia.
        -- intros j ? ?. by rewrite G1, decide_False by lia.
      * intros [= <-]. exists lo, hi. split; [done|]. split; [done|].
        split; [|split; [|done]].
        -- rewrite Hlo. f_equal. lia.
        -- rewrite Hhi. f_equal. lia.
  - destruct (Z.leb_spec 0 y); cbn [andb]; [|by intros [= <-]].
    destruct (Z.ltb_spec y ymax); [lia|]. by intros [= <-].
Qed.

Lemma widen_row_covers_self (ymax x y : Z) (xrange xr' : list Z) :
  0 ≤ y < ymax → widen_row ymax x y xrange = Ok xr' → row_covers xr' x y.
Proof.
  intros Hy Hw. apply widen_row_spec in Hw. rewrite decide_True in Hw by done.
  destruct Hw as (lo & hi & _ & _ & Hlo & Hhi & _).
  exists (Z.min x lo), (Z.max x hi). split; [done|]. split; [done|lia].
Qed.

Lemma widen_row_covers_mono (ymax x y : Z) (xrange xr' : list Z) (x0 y0 : Z) :
  widen_row ymax x y xrange = Ok xr' →
  row_covers xrange x0 y0 → row_covers xr' x0 y0.
Proof.
  intros Hw (lo0 & hi0 & Hlo0 & Hhi0 & Hx0). apply widen_row_spec in Hw.
  destruct (decide (0 ≤ y < ymax)) as [Hy|Hy]; [|by subst; exists lo0, hi0].
  destruct Hw as (lo & hi & Hlo & Hhi & Hlo' & Hhi' & Hother).
  destruct (decide (y0 = y)) as [->|Hne].
  - exists (Z.min x lo), (Z.max x hi). split; [done|]. split; [done|].
    rewrite Hlo in Hlo0. rewrite Hhi in Hhi0.
    injection Hlo0 as ->. injection Hhi0 as ->. lia.
  - exists lo0, hi0. rewrite !Hother by lia. done.
Qed.

Lemma widen_row_within (xmin xmax ymax x y : Z) (xrange xr' : list Z) :
  xmin ≤ x ≤ xmax → rows_within xmin xmax xrange →
  widen_row ymax x y xrange = Ok xr' → rows_within xmin xmax xr'.
Proof.
  intros Hx Hin Hw. apply widen_row_spec in Hw.
  destruct (decide (0 ≤ y < ymax)) as [Hy|Hy]; [|by subst].
  destruct Hw as (lo & hi & Hlo & Hhi & Hlo' & Hhi' & Hother).
  intros y0 lo0 hi0. destruct (decide (y0 = y)) as [->|Hne].
  - rewrite Hlo', Hhi'. intros [= <-] [= <-].
    destruct (Hin y lo hi Hlo Hhi); lia.
  - rewrite !Hother by lia. apply Hin.
Qed.

(** A property of the scratch vector that every visit keeps is kept by the
    whole loop. *)
Lemma ScanLine_loop_keeps (P : list Z → Prop) (ymax m n dx1 dy1 dx2 dy2 : Z) :
  (∀ x y xr xr', P xr → widen_row ymax x y xr = Ok xr' → P xr') →
  ∀ (cnt : nat) x y k xr xr',
    P xr → ScanLine_loop cnt m n dx1 dy1 dx2 dy2 ymax x y k xr = Ok xr' → P xr'.
Proof.
  intros Hstep cnt. induction cnt as [|cnt IH]; intros x y k xr xr' HP; cbn.
  - by intros [= <-].
  - destruct (widen_row ymax x y xr) as [xr1|] eqn:Hw; [|done]. cbn [res_bind].
    apply Hstep in Hw; [|done]. destruct (k + n <? m); by apply IH.
Qed.

Lemma ScanLine_covers_mono (x1 y1 x2 y2 ymax : Z) (xrange xr' : list Z) (x0 y0 : Z) :
  ScanLine x1 y1 x2 y2 ymax xrange = Ok xr' →
  row_covers xrange x0 y0 → row_covers xr' x0 y0.
Proof.
  unfold ScanLine. intros Hs Hc.
  destruct (ABS (x2 - x1) <? ABS (y2 - y1));
    (eapply (ScanLine_loop_keeps (fun xr => row_covers xr x0 y0));
     [|exact Hc|exact Hs]);
    intros x y xr1 xr2 ? Hw; by eapply widen_row_covers_mono.
Qed.

(** The first cell [ScanLine] visits is its start. *)
Lemma ScanLine_covers_start (x1 y1 x2 y2 ymax : Z) (xrange xr' : list Z) :
  0 ≤ y1 < ymax →
  ScanLine x1 y1 x2 y2 ymax xrange = Ok xr' → row_covers xr' x1 y1.
Proof.
  intros Hy. unfold ScanLine.
  assert (Hgo : ∀ m n dx1 dy1 dx2 dy2 k,
             0 ≤ m →
             ScanLine_loop (Z.to_nat (m + 1)) m n dx1 dy1 dx2 dy2 ymax
               x1 y1 k xrange = Ok xr' → row_covers xr' x1 y1).
  { intros m n dx1 dy1 dx2 dy2 k Hm.
    replace (Z.to_nat (m + 1)) with (S (Z.to_nat m)) by lia. cbn [ScanLine_loop].
    destruct (widen_row ymax x1 y1 xrange) as [xr1|] eqn:Hw; [|done].
    cbn [res_bind]. apply widen_row_covers_self in Hw; [|done].
    destruct (k + n <? m);
      (apply (ScanLine_loop_keeps (fun xr => row_covers xr x1 y1)); [|exact Hw]);
      intros x y xra xrb ? Hw'; by eapply widen_row_covers_mono. }
  assert (HA : ∀ z, 0 ≤ ABS z) by (intros z; unfold ABS; destruct (Z.leb_spec 0 z); lia).
  destruct (ABS (x2 - x1) <? ABS (y2 - y1)); apply Hgo; apply HA.
Qed.

(** The walk of [ScanLine]: [r] steps are left, at most [D] of them along
    the minor axis. A property kept by the visits at the cells the walk can
    reach is kept by the loop. *)
Lemma ScanLine_loop_visits (Q : Z → Z → Prop) (P : list Z → Prop)
    (ymax m n dx1 dy1 dx2 dy2 : Z) :
  (∀ x y xr xr', Q x y → P xr → widen_row ymax x y xr = Ok xr' → P xr') →
  0 ≤ n →
  ∀ (r : nat) (D x y k : Z) xr xr',
    0 ≤ k → 0 ≤ D →
    (0 < Z.of_nat r → k + Z.of_nat r * n < (D + 1) * m) →
    (∀ a b, 0 ≤ a → 0 ≤ b ≤ D → a + b ≤ Z.of_nat r →
            Q (x + a * dx2 + b * dx1) (y + a * dy2 + b * dy1)) →
    P xr →
    ScanLine_loop (S r) m n dx1 dy1 dx2 dy2 ymax x y k xr = Ok xr' → P xr'.
Proof.
  intros Hstep Hn r. induction r as [|r IH]; intros D x y k xr xr' Hk HD Hbud HQ HP.
  - cbn [ScanLine_loop].
    destruct (widen_row ymax x y xr) as [xr1|] eqn:Hw; [|done]. cbn [res_bind].
    assert (P xr1).
    { eapply Hstep; [|exact HP|exact Hw].
      specialize (HQ 0 0). rewrite !Z.mul_0_l, !Z.add_0_r in HQ. apply HQ; lia. }
    destruct (k + n <? m); by intros [= <-].
  - remember (S r) as r1 eqn:Hr1. cbn [ScanLine_loop]. subst r1.
    destruct (widen_row ymax x y xr) as [xr1|] eqn:Hw; [|done]. cbn [res_bind].
    assert (HP1 : P xr1).
    { eapply Hstep; [|exact HP|exact Hw].
      specialize (HQ 0 0). rewrite !Z.mul_0_l, !Z.add_0_r in HQ. apply HQ; lia. }
    assert (Hb : k + (Z.of_nat r * n + n) < (D + 1) * m).
    { replace (Z.of_nat r * n + n) with (Z.of_nat (S r) * n) by lia.
      apply Hbud. lia. }
    assert (0 ≤ Z.of_nat r * n) by (apply Z.mul_nonneg_nonneg; lia).
    destruct (Z.ltb_spec (k + n) m) as [Hlt|Hge].
    + apply (IH D); [lia|lia|lia| |exact HP1].
      intros a b Ha Hb' Hab.
      replace (x + dx2 + a * dx2 + b * dx1) with (x + (a + 1) * dx2 + b * dx1) by ring.
      replace (y + dy2 + a * dy2 + b * dy1) with (y + (a + 1) * dy2 + b * dy1) by ring.
      apply HQ; lia.
    + assert (1 ≤ D).
      { destruct (decide (D = 0)) as [->|]; [|lia]. lia. }
      apply (IH (D - 1)); [lia|lia| | |exact HP1].
      * intros _. replace (D - 1 + 1) with D by lia.
        replace ((D + 1) * m) with (D * m + m) in Hb by ring. lia.
      * intros a b Ha Hb' Hab.
        replace (x + dx1 + a * dx2 + b * dx1) with (x + a * dx2 + (b + 1) * dx1) by ring.
        replace (y + dy1 + a * dy2 + b * dy1) with (y + a * dy2 + (b + 1) * dy1) by ring.
        apply HQ; lia.
Qed.

(** [ScanLine] visits no column outside those of its two ends. *)
Lemma ScanLine_within (xmin xmax x1 y1 x2 y2 ymax : Z) (xrange xr' : list Z) :
  xmin ≤ x1 ≤ xmax → xmin ≤ x2 ≤ xmax →
  rows_within xmin xmax xrange →
  ScanLine x1 y1 x2 y2 ymax xrange = Ok xr' → rows_within xmin xmax xr'.
Proof.
  intros H1 H2 Hin. unfold ScanLine.
  assert (Hstep : ∀ x y xr xr2, xmin ≤ x ≤ xmax → rows_within xmin xmax xr →
                    widen_row ymax x y xr = Ok xr2 → rows_within xmin xmax xr2).
  { intros x y xr xr2. apply widen_row_within. }
  set (sx := x2 - x1). set (sy := y2 - y1).
  assert (HA : ∀ z, 0 ≤ ABS z ∧ (ABS z = z ∨ ABS z = - z))
    by (intros z; unfold ABS; destruct (Z.leb_spec 0 z); lia).
  assert (Hs : ∀ c, 0 ≤ c ≤ ABS sx → xmin ≤ x1 + c * sgn sx ≤ xmax).
  { intros c Hc. unfold sgn, ABS in *. subst sx.
    destruct (Z.leb_spec 0 (x2 - x1)); destruct (Z.ltb_spec 0 (x2 - x1));
      destruct (Z.ltb_spec (x2 - x1) 0); lia. }
  destruct (HA sx) as [Hax _]. destruct (HA sy) as [Hay _].
  destruct (Z.ltb_spec (ABS sx) (ABS sy)) as [Hlt|Hge].
  - replace (Z.to_nat (ABS sy + 1)) with (S (Z.to_nat (ABS sy))) by lia.
    apply (ScanLine_loop_visits (fun x _ => xmin ≤ x ≤ xmax)
             (rows_within xmin xmax) ymax (ABS sy) (ABS sx) (sgn sx) (sgn sy)
             0 (sgn sy) Hstep Hax (Z.to_nat (ABS sy)) (ABS sx));
      [apply Z.div_pos; lia|lia| | |exact Hin].
    + intros Hpos. rewrite Z2Nat.id by lia.
      assert (ABS sx / 2 < ABS sy) by (apply Z.div_lt_upper_bound; lia).
      replace ((ABS sx + 1) * ABS sy) with (ABS sy * ABS sx + ABS sy) by ring. lia.
    + intros a b Ha Hb Hab. rewrite Z.mul_0_r, Z.add_0_r. apply Hs. lia.
  - replace (Z.to_nat (ABS sx + 1)) with (S (Z.to_nat (ABS sx))) by lia.
    apply (ScanLine_loop_visits (fun x _ => xmin ≤ x ≤ xmax)
             (rows_within xmin xmax) ymax (ABS sx) (ABS sy) (sgn sx) (sgn sy)
             (sgn sx) 0 Hstep Hay (Z.to_nat (ABS sx)) (ABS sy));
      [apply Z.div_pos; lia|lia| | |exact Hin].
    + intros Hpos. rewrite Z2Nat.id by lia.
      assert (ABS sy / 2 < ABS sx) by (apply Z.div_lt_upper_bound; lia).
      replace ((ABS sy + 1) * ABS sx) with (ABS sx * ABS sy + ABS sx) by ring. lia.
    + intros a b Ha Hb Hab.
      replace (x1 + a * sgn sx + b * sgn sx) with (x1 + (a + b) * sgn sx) by ring.
      apply Hs. rewrite Z2Nat.id in Hab by lia. lia.
Qed.

(** After the sentinels are stored every row of the scan holds them. *)
Lemma init_xrange_rows (ydelta : Z) (g : list Z) :
  init_xrange ydelta = Ok g →
  ∀ y, 0 ≤ y < ydelta →
       xr_get g (2 * y + 0) = Ok 999999 ∧ xr_get g (2 * y + 1) = Ok (-999999).
Proof.
  unfold init_xrange.
  assert (Hgo : ∀ (l : list Z) g0 g1,
             res_foldl (fun g y =>
                          g0 <-- xr_set g (2 * y + 0) 999999 ;;
                          xr_set g0 (2 * y + 1) (-999999)) g0 l = Ok g1 →
             ∀ y, y ∈ l ∨ (xr_get g0 (2 * y + 0) = Ok 999999
                           ∧ xr_get g0 (2 * y + 1) = Ok (-999999)) →
                  xr_get g1 (2 * y + 0) = Ok 999999
                  ∧ xr_get g1 (2 * y + 1) = Ok (-999999)).
  { induction l as [|y0 l IH]; intros g0 g1; cbn [res_foldl].
    - intros [= <-] y [Hy|Hy]; [by apply elem_of_nil in Hy|done].
    - destruct (xr_set g0 (2 * y0 + 0) 999999) as [ga|] eqn:Ha; [|done].
      cbn [res_bind].
      destruct (xr_set ga (2 * y0 + 1) (-999999)) as [gb|] eqn:Hb; [|done].
      cbn [res_bind]. intros Hrest y Hy. apply (IH gb g1 Hrest).
      pose proof (fun j => xr_get_set _ _ _ _ j Ha) as Ga.
      pose proof (fun j => xr_get_set _ _ _ _ j Hb) as Gb.
      destruct (decide (y = y0)) as [->|Hne].
      + right. rewrite !Gb, Ga.
        rewrite (decide_False (P := 2 * y0 + 0 = 2 * y0 + 1)) by lia.
        by rewrite !decide_True by done.
      + destruct Hy as [Hy|[Hlo Hhi]].
        * apply elem_of_cons in Hy as [?|Hy]; [done|by left].
        * right. rewrite !Gb, !Ga, !decide_False by lia. done. }
  intros Hg y Hy. apply (Hgo _ _ _ Hg). left. apply elem_of_seqZ. lia.
Qed.

Lemma init_xrange_within (ydelta xmin xmax : Z) (g : list Z) :
  -999999 ≤ xmin → xmax ≤ 999999 →
  init_xrange ydelta = Ok g → 0 ≤ ydelta →
  Z.of_nat (length g) = 2 * ydelta → rows_within xmin xmax g.
Proof.
  intros Hmin Hmax Hg Hd Hlen y lo hi Hlo Hhi.
  assert (0 ≤ y < ydelta) as Hy.
  { unfold xr_get, at_index in Hhi.
    destruct (Z.ltb_spec (2 * y + 1) 0); [done|].
    destruct (g !! Z.to_nat (2 * y + 1)) eqn:E; [|done].
    apply lookup_lt_Some in E. lia. }
  destruct (init_xrange_rows _ _ Hg y Hy) as [Hlo' Hhi'].
  rewrite Hlo' in Hlo. rewrite Hhi' in Hhi.
  injection Hlo as <-. injection Hhi as <-. left. lia.
Qed.

(** The steps of [scan_triangle], with their intermediate vectors. *)
Lemma scan_triangle_steps (p0 p1 p2 : ImVec2) :
  let ymin := Qfloor (Qmin (Qmin (vy p0) (vy p1)) (vy p2)) in
  let ymax := Qfloor (Qmax (Qmax (vy p0) (vy p1)) (vy p2)) in
  let ydelta := ymax - ymin + 1 in
  ∃ g g1 g2 g3,
    init_xrange ydelta = Ok g
    ∧ ScanLine (Qfloor (vx p0)) (Qfloor (vy p0) - ymin)
               (Qfloor (vx p1)) (Qfloor (vy p1) - ymin) ydelta g = Ok g1
    ∧ ScanLine (Qfloor (vx p1)) (Qfloor (vy p1) - ymin)
               (Qfloor (vx p2)) (Qfloor (vy p2) - ymin) ydelta g1 = Ok g2
    ∧ ScanLine (Qfloor (vx p2)) (Qfloor (vy p2) - ymin)
               (Qfloor (vx p0)) (Qfloor (vy p0) - ymin) ydelta g2 = Ok g3
    ∧ scan_triangle p0 p1 p2 = Ok (mkScan ymin ydelta g3)
    ∧ 1 ≤ ydelta
    ∧ Z.of_nat (length g) = 2 * ydelta
    ∧ Z.of_nat (length g3) = 2 * ydelta.
Proof.
  intros ymin ymax ydelta. unfold scan_triangle.
  pose proof (Qfloor_min_le_max (vy p0) (vy p1) (vy p2)) as Hy.
  fold ymin ymax in Hy |- *. fold ydelta.
  destruct (init_xrange_ok ydelta) as (g & Hg & Hlen); [unfold ydelta; lia|].
  destruct (ScanLine_ok (Qfloor (vx p0)) (Qfloor (vy p0) - ymin)
              (Qfloor (vx p1)) (Qfloor (vy p1) - ymin) ydelta g)
    as (g1 & H1 & Hg1); [done|].
  destruct (ScanLine_ok (Qfloor (vx p1)) (Qfloor (vy p1) - ymin)
              (Qfloor (vx p2)) (Qfloor (vy p2) - ymin) ydelta g1)
    as (g2 & H2 & Hg2); [lia|].
  destruct (ScanLine_ok (Qfloor (vx p2)) (Qfloor (vy p2) - ymin)
              (Qfloor (vx p0)) (Qfloor (vy p0) - ymin) ydelta g2)
    as (g3 & H3 & Hg3); [lia|].
  exists g, g1, g2, g3. rewrite Hg. cbn [res_bind]. rewrite H1. cbn [res_bind].
  rewrite H2. cbn [res_bind]. rewrite H3. cbn [res_bind].
  repeat split; try done; unfold ydelta; lia.
Qed.

Lemma res_foldl_rows {A B} (f : B → res (list A)) (l : list B) (acc cand : list A) :
  res_foldl (fun cells y => row <-- f y ;; Ok (cells ++ row)) acc l = Ok cand →
  ∀ c, c ∈ cand ↔ c ∈ acc ∨ ∃ y row, y ∈ l ∧ f y = Ok row ∧ c ∈ row.
Proof.
  revert acc. induction l as [|y0 l IH]; intros acc; cbn [res_foldl].
  - intros [= <-] c. split; [by left|].
    intros [?|(y & row & Hy & _)]; [done|by apply elem_of_nil in Hy].
  - destruct (f y0) as [row0|] eqn:Hf; [|done]. cbn [res_bind].
    intros Hrest c. rewrite (IH _ Hrest c), elem_of_app. split.
    + intros [[?|?]|(y & row & Hy & Hr & Hc)].
      * by left.
      * right. exists y0, row0. split; [left|done].
      * right. exists y, row. split; [by right|done].
    + intros [?|(y & row & Hy & Hr & Hc)]; [by left; left|].
      apply elem_of_cons in Hy as [->|Hy].
      * left; right. congruence.
      * right. by exists y, row.
Qed.

(** The cells of a row, read off the scratch vector. *)
Lemma row_candidates_spec (xrange : list Z) (ymin y : Z) (row : list (Z * Z)) :
  row_candidates xrange ymin y = Ok row →
  ∀ x y', (x, y') ∈ row ↔ y' = y + ymin ∧ row_covers xrange x y.
Proof.
  unfold row_candidates, row_covers.
  destruct (xr_get xrange (2 * y + 1)) as [hi|] eqn:Hhi; [|done]. cbn [res_bind].
  destruct (xr_get xrange (2 * y + 0)) as [lo|] eqn:Hlo; [|done]. cbn [res_bind].
  destruct (Z.leb_spec lo hi); intros [= <-] x y'.
  - rewrite list_elem_of_fmap. split.
    + intros (j & [= -> ->] & Hj). apply elem_of_seqZ in Hj.
      split; [done|]. exists lo, hi. split; [done|]. split; [done|lia].
    + intros (-> & lo' & hi' & [= <-] & [= <-] & Hx).
      exists (x - lo). split; [f_equal; lia|]. apply elem_of_seqZ. lia.
  - split; [by intros ?%elem_of_nil|].
    intros (_ & lo' & hi' & [= <-] & [= <-] & Hx). lia.
Qed.

(** The cells the final double loop reaches are the cells the scratch
    vector covers, on the rows of the scan. *)
Lemma triangle_candidates_spec (p0 p1 p2 : ImVec2) :
  ∃ sc cand,
    scan_triangle p0 p1 p2 = Ok sc
    ∧ triangle_candidates p0 p1 p2 = Ok cand
    ∧ ∀ x y, (x, y) ∈ cand ↔
             0 ≤ y - scan_ymin sc < scan_ydelta sc
             ∧ row_covers (scan_xrange sc) x (y - scan_ymin sc).
Proof.
  destruct (scan_triangle_ok p0 p1 p2) as (sc & Hsc & Hd & Hlen).
  destruct (triangle_candidates_ok p0 p1 p2) as [cand Hcand].
  exists sc, cand. split; [done|]. split; [done|].
  unfold triangle_candidates in Hcand. rewrite Hsc in Hcand. cbn [res_bind] in Hcand.
  intros x y. rewrite (res_foldl_rows _ _ _ _ Hcand (x, y)). split.
  - intros [?%elem_of_nil|(y0 & row & Hy0 & Hrow & Hc)]; [done|].
    apply elem_of_seqZ in Hy0.
    apply (row_candidates_spec _ _ _ _ Hrow) in Hc as [-> Hc].
    replace (y0 + scan_ymin sc - scan_ymin sc) with y0 by lia. split; [lia|done].
  - intros [Hy Hc]. right.
    destruct (row_candidates_ok (scan_xrange sc) (scan_ymin sc) (y - scan_ymin sc))
      as [row Hrow]; [lia|].
    exists (y - scan_ymin sc), row. split; [apply elem_of_seqZ; lia|].
    split; [done|]. apply (row_candidates_spec _ _ _ _ Hrow). split; [lia|done].
Qed.

Lemma Qfloor_between (a b c : Q) :
  let lo := Qfloor (Qmin (Qmin a b) c) in
  let hi := Qfloor (Qmax (Qmax a b) c) in
  lo ≤ Qfloor a ≤ hi ∧ lo ≤ Qfloor b ≤ hi ∧ lo ≤ Qfloor c ≤ hi.
Proof.
  cbn zeta. repeat split; apply Qfloor_resp_le.
  - eapply Qle_trans; [apply Q.le_min_l|apply Q.le_min_l].
  - eapply Qle_trans; [|apply Q.le_max_l]. apply Q.le_max_l.
  - eapply Qle_trans; [apply Q.le_min_l|apply Q.le_min_r].
  - eapply Qle_trans; [|apply Q.le_max_l]. apply Q.le_max_r.
  - apply Q.le_min_r.
  - apply Q.le_max_r.
Qed.



Lemma xr_get_ext (a b : list Z) : (∀ j, xr_get a j = xr_get b j) → a = b.
Proof.
  intros Hj. apply list_eq. intros i. specialize (Hj (Z.of_nat i)).
  unfold xr_get, at_index in Hj.
  destruct (Z.ltb_spec (Z.of_nat i) 0); [lia|]. rewrite Nat2Z.id in Hj.
  destruct (a !! i), (b !! i); congruence.
Qed.

Lemma widen_row_out (ymax x y : Z) (xrange : list Z) :
  ¬ (0 ≤ y < ymax) → widen_row ymax x y xrange = Ok xrange.
Proof.
  intros Hy. unfold widen_row. destruct (Z.leb_spec 0 y); cbn [andb]; [|done].
  by destruct (Z.ltb_spec y ymax); [lia|].
Qed.

(** Two visits can be made in either order. *)
Lemma widen_row_comm (ymax x y x' y' : Z) :
  commute_on ymax (widen_row ymax x y) (widen_row ymax x' y').
Proof.
  intros xr a b Hlen Ha Hb.
  destruct (decide (0 ≤ y < ymax)) as [Hy|Hy].
  2:{ rewrite widen_row_out in Ha by done. injection Ha as <-.
      exists b. split; [done|]. by apply widen_row_out. }
  destruct (decide (0 ≤ y' < ymax)) as [Hy'|Hy'].
  2:{ rewrite widen_row_out in Hb by done. injection Hb as <-.
      exists xr. split; [by apply widen_row_out|done]. }
  destruct (widen_row_ok ymax x' y' xr Hlen) as (a' & Ha' & Hla').
  destruct (widen_row_ok ymax x y a') as (b' & Hb' & Hlb'); [lia|].
  exists a'. split; [done|]. rewrite Hb'. f_equal. apply xr_get_ext. intros j.
  apply widen_row_spec in Ha, Hb, Ha', Hb'.
  rewrite decide_True in Ha by done. rewrite decide_True in Hb by done.
  rewrite decide_True in Ha' by done. rewrite decide_True in Hb' by done.
  destruct Ha as (lo1 & hi1 & E1l & E1h & A1l & A1h & O1).
  destruct Hb as (lo2 & hi2 & E2l & E2h & B2l & B2h & O2).
  destruct Ha' as (lo3 & hi3 & E3l & E3h & A3l & A3h & O3).
  destruct Hb' as (lo4 & hi4 & E4l & E4h & B4l & B4h & O4).
  destruct (decide (y = y')) as [<-|Hne].
  - rewrite A1l in E2l. injection E2l as <-. rewrite A1h in E2h. injection E2h as <-.
    rewrite E1l in E3l. injection E3l as <-. rewrite E1h in E3h. injection E3h as <-.
    rewrite A3l in E4l. injection E4l as <-. rewrite A3h in E4h. injection E4h as <-.
    destruct (decide (j = 2 * y + 0)) as [->|?];
      [rewrite B2l, B4l; f_equal; lia|].
    destruct (decide (j = 2 * y + 1)) as [->|?];
      [rewrite B2h, B4h; f_equal; lia|].
    by rewrite O4, O3, O2, O1 by done.
  - rewrite O1, E3l in E2l by lia. injection E2l as <-.
    rewrite O1, E3h in E2h by lia. injection E2h as <-.
    rewrite O3, E1l in E4l by lia. injection E4l as <-.
    rewrite O3, E1h in E4h by lia. injection E4h as <-.
    destruct (decide (j = 2 * y + 0)) as [->|?];
      [by rewrite B4l, O2, A1l by lia|].
    destruct (decide (j = 2 * y + 1)) as [->|?];
      [by rewrite B4h, O2, A1h by lia|].
    destruct (decide (j = 2 * y' + 0)) as [->|?];
      [by rewrite O4, A3l, B2l by lia|].
    destruct (decide (j = 2 * y' + 1)) as [->|?];
      [by rewrite O4, A3h, B2h by lia|].
    by rewrite O4, O3, O2, O1 by done.
Qed.

Lemma ScanLine_loop_commute_l (ymax : Z) (G : list Z → res (list Z))
    (m n dx1 dy1 dx2 dy2 : Z) :
  (∀ x y, commute_on ymax (widen_row ymax x y) G) →
  ∀ (cnt : nat) x y k,
    commute_on ymax (ScanLine_loop cnt m n dx1 dy1 dx2 dy2 ymax x y k) G.
Proof.
  intros HG cnt. induction cnt as [|cnt IH]; intros x y k xr a b Hlen; cbn [ScanLine_loop].
  - intros [= <-] Hb. by exists b.
  - destruct (widen_row_ok ymax x y xr Hlen) as (x1 & Hw & Hl1).
    rewrite Hw. cbn [res_bind]. intros Ha Hb.
    assert (∃ a', G x1 = Ok a'
                  ∧ (if k + n <? m
                     then ScanLine_loop cnt m n dx1 dy1 dx2 dy2 ymax
                            (x + dx2) (y + dy2) (k + n) a'
                     else ScanLine_loop cnt m n dx1 dy1 dx2 dy2 ymax
                            (x + dx1) (y + dy1) (k + n - m) a') = Ok b)
      as (a1 & HG1 & Hrest).
    { destruct (k + n <? m); eapply IH; try done; lia. }
    destruct (HG x y xr x1 a1 Hlen Hw HG1) as (a2 & HG2 & Hw2).
    exists a2. split; [done|]. by rewrite Hw2.
Qed.

Lemma ScanLine_loop_commute_r (ymax : Z) (G : list Z → res (list Z))
    (m n dx1 dy1 dx2 dy2 : Z) :
  (∀ x y, commute_on ymax G (widen_row ymax x y)) →
  ∀ (cnt : nat) x y k,
    commute_on ymax G (ScanLine_loop cnt m n dx1 dy1 dx2 dy2 ymax x y k).
Proof.
  intros HG cnt. induction cnt as [|cnt IH]; intros x y k xr a b Hlen Ha;
    cbn [ScanLine_loop].
  - intros [= <-]. by exists xr.
  - destruct (widen_row ymax x y a) as [a1|] eqn:Hw; [|done]. cbn [res_bind].
    intros Hrest.
    destruct (HG x y xr a a1 Hlen Ha Hw) as (x1 & Hw1 & HG1).
    destruct (widen_row_ok ymax x y xr Hlen) as (x1' & Hw1' & Hl1).
    rewrite Hw1 in Hw1'. injection Hw1' as <-.
    rewrite Hw1. cbn [res_bind].
    destruct (k + n <? m); eapply IH; try done; lia.
Qed.

(** Two calls of [ScanLine] on the same scratch vector can be made in either
    order. *)
Lemma ScanLine_as_loop (x1 y1 x2 y2 ymax : Z) :
  ∃ cnt m n dx1 dy1 dx2 dy2 k,
    ∀ xrange, ScanLine x1 y1 x2 y2 ymax xrange
              = ScanLine_loop cnt m n dx1 dy1 dx2 dy2 ymax x1 y1 k xrange.
Proof.
  unfold ScanLine.
  destruct (ABS (x2 - x1) <? ABS (y2 - y1)); by repeat eexists.
Qed.

Lemma ScanLine_commute (ymax x1 y1 x2 y2 x1' y1' x2' y2' : Z) :
  commute_on ymax (ScanLine x1 y1 x2 y2 ymax) (ScanLine x1' y1' x2' y2' ymax).
Proof.
  destruct (ScanLine_as_loop x1 y1 x2 y2 ymax)
    as (cnt & m & n & dx1 & dy1 & dx2 & dy2 & k & HA).
  destruct (ScanLine_as_loop x1' y1' x2' y2' ymax)
    as (cnt' & m' & n' & dx1' & dy1' & dx2' & dy2' & k' & HB).
  assert (HG : ∀ x y, commute_on ymax (widen_row ymax x y)
             (ScanLine_loop cnt' m' n' dx1' dy1' dx2' dy2' ymax x1' y1' k')).
  { intros x y. apply ScanLine_loop_commute_r.
    intros x' y'. apply widen_row_comm. }
  intros xr a b Hlen. rewrite !HA, !HB. intros Ha Hb.
  destruct (ScanLine_loop_commute_l ymax _ m n dx1 dy1 dx2 dy2 HG cnt x1 y1 k
              xr a b Hlen Ha Hb) as (a' & Ha' & Hb').
  exists a'. by rewrite ?HA, ?HB.
Qed.

(** X12. [drawTriangle] gives the same display whichever of the three
    vertices is named first, the order around the triangle being kept. *)
Theorem drawTriangle_rotation (ColorConvertU32ToFloat4 : Z → ImVec4)
    (p0 p1 p2 : ImVec2) (col : Z) (s : Screen) :
  scan_triangle p1 p2 p0 = scan_triangle p0 p1 p2
  ∧ drawTriangle ColorConvertU32ToFloat4 p1 p2 p0 col s
    = drawTriangle ColorConvertU32ToFloat4 p0 p1 p2 col s.
Proof.
  assert (Hscan : scan_triangle p1 p2 p0 = scan_triangle p0 p1 p2).
  { destruct (scan_triangle_steps p0 p1 p2)
      as (g & g1 & g2 & g3 & Hg & H1 & H2 & H3 & Hsc & Hd & Hlen & Hlen3).
    rewrite Hsc. unfold scan_triangle.
    assert (Hmin : Qfloor (Qmin (Qmin (vy p1) (vy p2)) (vy p0))
                   = Qfloor (Qmin (Qmin (vy p0) (vy p1)) (vy p2))).
    { apply Qfloor_comp. rewrite Q.min_comm. apply Q.min_assoc. }
    assert (Hmax : Qfloor (Qmax (Qmax (vy p1) (vy p2)) (vy p0))
                   = Qfloor (Qmax (Qmax (vy p0) (vy p1)) (vy p2))).
    { apply Qfloor_comp. rewrite Q.max_comm. apply Q.max_assoc. }
    rewrite Hmin, Hmax.
    set (ymin := Qfloor (Qmin (Qmin (vy p0) (vy p1)) (vy p2))) in *.
    set (ymax := Qfloor (Qmax (Qmax (vy p0) (vy p1)) (vy p2))) in *.
    rewrite Hg. cbn [res_bind].
    destruct (ScanLine_commute _ _ _ _ _ _ _ _ _ g g1 g2 Hlen H1 H2)
      as (h1 & K1 & K1').
    destruct (ScanLine_ok (Qfloor (vx p1)) (Qfloor (vy p1) - ymin)
                (Qfloor (vx p2)) (Qfloor (vy p2) - ymin) (ymax - ymin + 1) g)
      as (h1' & K1'' & Hlh1); [done|].
    rewrite K1 in K1''. injection K1'' as <-.
    assert (Hlen1 : Z.of_nat (length h1) = 2 * (ymax - ymin + 1)) by lia.
    destruct (ScanLine_commute _ _ _ _ _ _ _ _ _ h1 g2 g3 Hlen1 K1' H3)
      as (h2 & K2 & K2').
    rewrite K1. cbn [res_bind]. rewrite K2. cbn [res_bind]. rewrite K2'. done. }
  split; [done|].
  unfold drawTriangle, drawTriangle_cells, triangle_candidates. by rewrite Hscan.
Qed.

(** ** Colour mapper *)

Lemma NoDup_snd_inj {A B} (l : list (A * B)) (a a' : A) (b : B) :
  NoDup (l.*2) → (a, b) ∈ l → (a', b) ∈ l → a = a'.
Proof.
  induction l as [|[x y] l IH]; intros Hnd Ha Ha'; [by apply elem_of_nil in Ha|].
  cbn in Hnd. apply NoDup_cons in Hnd as [Hy Hnd].
  apply elem_of_cons in Ha as [Ha|Ha]; apply elem_of_cons in Ha' as [Ha'|Ha'].
  - congruence.
  - exfalso. apply Hy. apply list_elem_of_fmap. exists (a', b).
    split; [cbn; congruence|done].
  - exfalso. apply Hy. apply list_elem_of_fmap. exists (a, b).
    split; [cbn; congruence|done].
  - by apply IH.
Qed.

Lemma colour_names_NoDup : NoDup (colour_names.*1) ∧ NoDup (colour_names.*2).
Proof.
  split.
  - apply (bool_decide_unpack (NoDup (colour_names.*1))). by vm_compute.
  - apply (bool_decide_unpack (NoDup (colour_names.*2))). by vm_compute.
Qed.

Lemma colour_lookup (name : string) (i : Z) :
  name_to_colour_index name = Ok i ↔ (name, i) ∈ colour_names.
Proof.
  unfold name_to_colour_index.
  rewrite (elem_of_list_to_map (M := gmap string) colour_names name i)
    by apply colour_names_NoDup.
  destruct (list_to_map colour_names !! name); split; congruence.
Qed.

Lemma colour_lookup_fails (name : string) (e : fault) :
  name_to_colour_index name = Fault e →
  e = OutOfRange ∧ name ∉ colour_names.*1.
Proof.
  unfold name_to_colour_index.
  destruct (list_to_map colour_names !! name) eqn:Hl; [done|].
  intros [= <-]. split; [done|].
  by apply (not_elem_of_list_to_map (M := gmap string)).
Qed.

(** X13. [name_to_colour_index] answers for exactly the names of its table,
    with the index the table gives, and fails with an out-of-range error
    for every other name; an index it gives lies between -1 and 16, and two
    names with the same index are the same name. *)
Theorem colour_index_of_names :
  (∀ name i, name_to_colour_index name = Ok i ↔ (name, i) ∈ colour_names)
  ∧ (∀ name, name ∉ colour_names.*1 ↔
             name_to_colour_index name = Fault OutOfRange)
  ∧ (∀ name i, name_to_colour_index name = Ok i → -1 ≤ i ≤ 16)
  ∧ (∀ name name' i,
       name_to_colour_index name = Ok i →
       name_to_colour_index name' = Ok i → name = name').
Proof.
  split; [apply colour_lookup|]. split; [|split].
  - intros name. unfold name_to_colour_index.
    rewrite (not_elem_of_list_to_map (M := gmap string) (A := Z)).
    destruct (list_to_map colour_names !! name); split; congruence.
  - intros name i Hi. apply colour_lookup in Hi.
    assert (Hall : Forall (fun p : string * Z => -1 ≤ p.2 ≤ 16) colour_names).
    { apply (bool_decide_unpack _). by vm_compute. }
    rewrite Forall_forall in Hall. exact (Hall _ Hi).
  - intros name name' i H1 H2. apply colour_lookup in H1, H2.
    eapply NoDup_snd_inj; [apply colour_names_NoDup|done|done].
Qed.

Lemma colour_interop_nth (col3 : list Z) :
  colour_interop col3
  = mkVec4 (inject_Z (nth 0 col3 0)) (inject_Z (nth 1 col3 0))
           (inject_Z (nth 2 col3 0)) 1.
Proof. by destruct col3 as [|a [|b [|c l]]]. Qed.

(** X14. [colour_interop] reads the first three entries of its vector, takes
    0 for an entry the vector does not have and ignores what comes after
    the third; the fourth component is 1. The overload on doubles does the
    same. *)
Theorem colour_interop_pads_and_truncates :
  (∀ col3 : list Z,
     colour_interop col3
     = mkVec4 (inject_Z (nth 0 col3 0)) (inject_Z (nth 1 col3 0))
              (inject_Z (nth 2 col3 0)) 1
     ∧ colour_interop (take 3 col3) = colour_interop col3
     ∧ colour_interop (col3 ++ replicate (3 - length col3) 0)
       = colour_interop col3)
  ∧ (∀ col3 : list Q,
       colour_interop_double col3
       = mkVec4 (nth 0 col3 0%Q) (nth 1 col3 0%Q) (nth 2 col3 0%Q) 1
       ∧ colour_interop_double (take 3 col3) = colour_interop_double col3
       ∧ colour_interop_double (col3 ++ replicate (3 - length col3) 0%Q)
         = colour_interop_double col3)
  ∧ colour_interop [] = mkVec4 0 0 0 1.
Proof.
  split; [|split; [|done]].
  - intros col3. by destruct col3 as [|a [|b [|c l]]].
  - intros col3. by destruct col3 as [|a [|b [|c l]]].
Qed.

(** X15. [named_colours] fails, with an out-of-range error, exactly when
    one of the two names is not in the table; otherwise its colour holds
    the index of the foreground name, the index of the background name, 1
    or 0 for bold, and 1. The names and the flag can be read back from the
    colour: two calls that give the same three components were given the
    same names and the same flag. *)
Theorem named_colours_round_trip (fg bg : string) (bold : bool) :
  match named_colours fg bg bold with
  | Ok c =>
    ∃ f b, (fg, f) ∈ colour_names ∧ (bg, b) ∈ colour_names
           ∧ c = mkVec4 (inject_Z f) (inject_Z b)
                        (inject_Z (if bold then 1 else 0)) 1
           ∧ ∀ fg' bg' bold' c',
               named_colours fg' bg' bold' = Ok c' →
               (v4x c' == v4x c ∧ v4y c' == v4y c ∧ v4z c' == v4z c)%Q →
               fg' = fg ∧ bg' = bg ∧ bold' = bold
  | Fault e => e = OutOfRange
               ∧ (fg ∉ colour_names.*1 ∨ bg ∉ colour_names.*1)
  end.
Proof.
  assert (Hshape : ∀ fg bg bold c,
             named_colours fg bg bold = Ok c →
             ∃ f b, (fg, f) ∈ colour_names ∧ (bg, b) ∈ colour_names
                    ∧ c = mkVec4 (inject_Z f) (inject_Z b)
                                 (inject_Z (if bold then 1 else 0)) 1).
  { intros fg0 bg0 bold0 c. unfold named_colours.
    destruct (name_to_colour_index fg0) as [f|e] eqn:Hf; [|done].
    destruct (name_to_colour_index bg0) as [b|e] eqn:Hb; [|done].
    cbn [res_bind]. intros [= <-]. exists f, b.
    split; [by apply colour_lookup|]. split; [by apply colour_lookup|done]. }
  destruct (named_colours fg bg bold) as [c|e] eqn:Hc.
  - destruct (Hshape _ _ _ _ Hc) as (f & b & Hf & Hb & ->).
    exists f, b. split; [done|]. split; [done|]. split; [done|].
    intros fg' bg' bold' c' Hc' (Hx & Hy & Hz).
    destruct (Hshape _ _ _ _ Hc') as (f' & b' & Hf' & Hb' & ->).
    cbn [v4x v4y v4z] in Hx, Hy, Hz.
    apply (proj1 (inject_Z_injective _ _)) in Hx, Hy, Hz. subst f' b'.
    split; [|split].
    + eapply NoDup_snd_inj; [apply colour_names_NoDup|done|done].
    + eapply NoDup_snd_inj; [apply colour_names_NoDup|done|done].
    + by destruct bold, bold'.
  - unfold named_colours in Hc.
    destruct (name_to_colour_index fg) as [f|e1] eqn:Hf.
    + destruct (name_to_colour_index bg) as [b|e2] eqn:Hb; [done|].
      cbn [res_bind] in Hc. injection Hc as <-.
      apply colour_lookup_fails in Hb as [-> Hb]. split; [done|by right].
    + cbn [res_bind] in Hc. injection Hc as <-.
      apply colour_lookup_fails in Hf as [-> Hf]. split; [done|by left].
Qed.

(** ** More on the reconciler *)

Section LayeringFacts.
Context `{Countable window}.
Implicit Types (c : @ImGuiContext window).

(** X16. Splicing twice with the same two lists is splicing once. *)
Theorem splice_is_idempotent (display_order focus_order : list window) c :
  imgui_rearrange_internals display_order focus_order
    (imgui_rearrange_internals display_order focus_order c)
  = imgui_rearrange_internals display_order focus_order c.
Proof.
  assert (Hfix : ∀ (order current : list window),
             filter (fun win => win ∉ order)
                    (filter (fun win => win ∉ order) current ++ order) ++ order
             = filter (fun win => win ∉ order) current ++ order).
  { intros order current. rewrite filter_app, list_filter_filter.
    rewrite (filter_none _ order) by (intros x Hx Hn; by apply Hn).
    rewrite app_nil_r. f_equal. apply list_filter_iff. intros x; tauto. }
  assert (Heq : ∀ a b : @ImGuiContext window,
             Windows a = Windows b →
             WindowsFocusOrder a = WindowsFocusOrder b → a = b).
  { intros [] []; cbn; congruence. }
  apply Heq.
  - rewrite !rearrange_windows. apply Hfix.
  - rewrite !rearrange_focus. apply Hfix.
Qed.

(** X17. The windows of a layer spliced later lie in front of those of a
    layer spliced earlier: after the splice of [first] and then of
    [second], the display list is the windows of neither, in the order they
    had, then the windows of [first] that are not in [second], in the order
    of [first], then [second]. When the two layers share no window, all of
    [first] is there, behind [second]. *)
Theorem later_layer_is_in_front
    (first first_focus second second_focus : list window) c :
  let c2 := imgui_rearrange_internals second second_focus
              (imgui_rearrange_internals first first_focus c) in
  Windows c2
  = filter (fun win => (win ∉ first) ∧ (win ∉ second)) (Windows c)
    ++ filter (fun win => win ∉ second) first ++ second
  ∧ ((∀ win, win ∈ first → win ∉ second) →
     Windows c2
     = filter (fun win => (win ∉ first) ∧ (win ∉ second)) (Windows c)
       ++ first ++ second).
Proof.
  intros c2. subst c2.
  assert (Hw : Windows (imgui_rearrange_internals second second_focus
                          (imgui_rearrange_internals first first_focus c))
               = filter (fun win => (win ∉ first) ∧ (win ∉ second)) (Windows c)
                 ++ filter (fun win => win ∉ second) first ++ second).
  { rewrite !rearrange_windows, filter_app, list_filter_filter, <- app_assoc.
    f_equal. apply list_filter_iff. intros x; tauto. }
  split; [exact Hw|]. intros Hdisj. rewrite Hw.
  by rewrite (filter_all _ first) by (intros x Hx; by apply Hdisj).
Qed.
End LayeringFacts.

(** ** The end of a layer's render *)

Lemma res_foldl_app {A B} (f : A → B → res A) (a : A) (l1 l2 : list B) :
  res_foldl f a (l1 ++ l2) = (a1 <-- res_foldl f a l1 ;; res_foldl f a1 l2).
Proof.
  revert a. induction l1 as [|b l1 IH]; intros a; simpl; [done|].
  destruct (f a b) as [a'|e]; simpl; [apply IH|done].
Qed.

Section RenderPassFacts.
Context `{Countable interface_key} `{Countable window}.
Variable Name : window -> string.
Variable ChildWindows : window -> list window.
Variable SortWindows : list window -> list window.

Local Abbreviation process := (@world interface_key _ _).
Local Abbreviation context := (@ImGuiContext window).
Local Abbreviation append := (imgui_append Name ChildWindows).
Local Abbreviation append_children := (imgui_append_children Name ChildWindows).
Local Abbreviation build := (imgui_build_windows Name).
Local Abbreviation collect :=
  (collect_windows (interface_key := interface_key) Name ChildWindows).
Local Abbreviation reaches := (descends ChildWindows).
Local Abbreviation within := (nested_within ChildWindows).

Implicit Types (win x root : window) (out ws : list window)
  (ignore rendered : gset string) (c : context) (w : process).

Lemma build_acc (names ignore : gset string) (is_top : bool) out (l : list window) :
  foldl (fun out next =>
           if bool_decide (Name next ∉ names) && negb is_top then out
           else if decide (Name next ∈ ignore) then out
           else out ++ [next])
        out l
  = out ++ filter (fun next => (is_top = true ∨ Name next ∈ names)
                               ∧ Name next ∉ ignore) l.
Proof.
  revert out. induction l as [|next l IH]; intros out; simpl.
  - by rewrite app_nil_r.
  - rewrite IH, filter_cons. clear IH.
    destruct (decide ((is_top = true ∨ Name next ∈ names) ∧ Name next ∉ ignore))
      as [[Hq Hi]|Hn].
    + assert (bool_decide (Name next ∉ names) && negb is_top = false) as ->.
      { apply andb_false_iff. destruct Hq as [->|Hq]; [by right|left].
        apply bool_decide_eq_false. tauto. }
      rewrite decide_False by done. by rewrite <- app_assoc.
    + destruct (bool_decide (Name next ∉ names) && negb is_top) eqn:Hb; [done|].
      destruct (decide (Name next ∈ ignore)); [done|]. exfalso. apply Hn.
      split; [|done]. apply andb_false_iff in Hb as [Hb|Hb].
      * right. apply bool_decide_eq_false in Hb.
        destruct (decide (Name next ∈ names)); tauto.
      * left. by destruct is_top.
Qed.

(** The windows [imgui_build_windows] finds: those of the display list that
    are claimed by name, or all when the layer is the top one, and are not
    yet rendered; in list order. *)
Lemma build_windows_filter (name : list string) ignore (is_top : bool) c out :
  build out name ignore is_top c
  = out ++ filter (fun next => (is_top = true ∨ Name next ∈ name)
                               ∧ Name next ∉ ignore) (Windows c).
Proof.
  unfold imgui_build_windows. rewrite build_acc.
  f_equal. apply list_filter_iff. intros x. by rewrite elem_of_list_to_set.
Qed.

(** What a finished [imgui_append] has added: exactly the windows reached
    from [win] that are not ignored; what was in [out] stays in front. *)
Lemma imgui_append_spec (fuel : nat) out ignore win res :
  append fuel out ignore win = Ok res →
  ∃ added, res = out ++ added
           ∧ ∀ x, x ∈ added ↔ reaches win x ∧ Name x ∉ ignore.
Proof.
  revert out win res. induction fuel as [|fuel IH]; intros out win res; [done|].
  cbn [imgui_append].
  set (own := if decide (Name win ∈ ignore) then [] else [win]).
  assert (Hout1 : (if decide (Name win ∈ ignore) then out else out ++ [win])
                  = out ++ own).
  { unfold own. destruct (decide (Name win ∈ ignore)); [by rewrite app_nil_r|done]. }
  rewrite Hout1. clear Hout1.
  assert (Hown : ∀ x, x ∈ own ↔ x = win ∧ Name x ∉ ignore).
  { intros x. unfold own. destruct (decide (Name win ∈ ignore)).
    - split; [by intros ?%elem_of_nil|]. intros [-> ?]. done.
    - rewrite list_elem_of_singleton. split; [by intros ->|tauto]. }
  assert (Hgen : ∀ (children : list window) acc res',
             res_foldl (fun out child => append fuel out ignore child)
                       (out ++ acc) children = Ok res' →
             ∃ added, res' = out ++ acc ++ added
                      ∧ ∀ x, x ∈ added ↔
                             (∃ child, child ∈ children ∧ reaches child x)
                             ∧ Name x ∉ ignore).
  { induction children as [|child children IHc]; intros acc res' Hres.
    - injection Hres as <-. exists []. rewrite app_nil_r. split; [done|].
      intros x. split; [by intros ?%elem_of_nil|].
      intros [(? & ?%elem_of_nil & _) _]. done.
    - cbn [res_foldl] in Hres.
      destruct (append fuel (out ++ acc) ignore child) as [r1|e] eqn:Hr1;
        [|done]. cbn [res_bind] in Hres.
      apply IH in Hr1 as (a1 & -> & Ha1).
      rewrite <- app_assoc in Hres.
      apply IHc in Hres as (a2 & -> & Ha2).
      exists (a1 ++ a2). split; [by rewrite !app_assoc|].
      intros x. rewrite elem_of_app, Ha1, Ha2. split.
      + intros [[Hr Hi]|[(ch & Hch & Hr) Hi]].
        * split; [|done]. exists child. split; [left|done].
        * split; [|done]. exists ch. split; [by right|done].
      + intros [(ch & Hch & Hr) Hi].
        apply elem_of_cons in Hch as [->|Hch]; [by left|].
        right. split; [|done]. by exists ch. }
  intros Hres. apply Hgen in Hres as (added & -> & Hadded).
  exists (own ++ added). split; [done|].
  intros x. rewrite elem_of_app, Hown, Hadded. split.
  - intros [[-> Hi]|[(ch & Hch & Hr) Hi]].
    + split; [constructor|done].
    + split; [|done]. by eapply descends_child.
  - intros [Hr Hi]. inversion Hr as [|? ch ? Hch Hr']; subst.
    + by left.
    + right. split; [|done]. by exists ch.
Qed.

(** On child lists no deeper than the fuel, [imgui_append] finishes. *)
Lemma imgui_append_total (fuel : nat) out ignore win :
  within fuel win → ∃ res, append fuel out ignore win = Ok res.
Proof.
  revert out win. induction fuel as [|fuel IH]; intros out win Hn;
    [inversion Hn|].
  inversion Hn as [? ? Hch]; subst. cbn [imgui_append].
  generalize (if decide (Name win ∈ ignore) then out else out ++ [win]).
  induction (ChildWindows win) as [|child children IHc]; intros acc.
  - by exists acc.
  - cbn [res_foldl].
    destruct (IH acc child) as [r1 ->]; [apply Hch; left|]. cbn [res_bind].
    apply IHc. intros ch Hin. apply Hch. by right.
Qed.

Lemma append_children_spec (fuel : nat) (inp : list window) ignore out res :
  append_children fuel inp ignore out = Ok res →
  ∃ added, res = out ++ added
           ∧ ∀ x, x ∈ added ↔
                  (∃ root, root ∈ inp ∧ reaches root x) ∧ Name x ∉ ignore.
Proof.
  unfold imgui_append_children. revert out res.
  induction inp as [|i inp IH]; intros out res Hres.
  - injection Hres as <-. exists []. rewrite app_nil_r. split; [done|].
    intros x. split; [by intros ?%elem_of_nil|].
    intros [(? & ?%elem_of_nil & _) _]. done.
  - cbn [res_foldl] in Hres.
    destruct (append fuel out ignore i) as [r1|e] eqn:Hr1; [|done].
    cbn [res_bind] in Hres.
    apply imgui_append_spec in Hr1 as (a1 & -> & Ha1).
    apply IH in Hres as (a2 & -> & Ha2).
    exists (a1 ++ a2). split; [by rewrite app_assoc|].
    intros x. rewrite elem_of_app, Ha1, Ha2. split.
    + intros [[Hr Hi]|[(r & Hrin & Hr) Hi]].
      * split; [|done]. exists i. split; [left|done].
      * split; [|done]. exists r. split; [by right|done].
    + intros [(r & Hrin & Hr) Hi].
      apply elem_of_cons in Hrin as [->|Hrin]; [by left|].
      right. split; [|done]. by exists r.
Qed.

Lemma append_children_total (fuel : nat) (inp : list window) ignore out :
  (∀ root, root ∈ inp → within fuel root) →
  ∃ res, append_children fuel inp ignore out = Ok res.
Proof.
  unfold imgui_append_children. revert out.
  induction inp as [|i inp IH]; intros out Hn; [by exists out|].
  cbn [res_foldl].
  destruct (imgui_append_total fuel out ignore i) as [r1 ->]; [apply Hn; left|].
  cbn [res_bind]. apply IH. intros r Hr. apply Hn. by right.
Qed.

Lemma mark_rendered_spec rendered ws (s : string) :
  s ∈ mark_rendered Name rendered ws ↔ s ∈ rendered ∨ ∃ x, x ∈ ws ∧ Name x = s.
Proof.
  unfold mark_rendered. revert rendered.
  induction ws as [|x ws IH]; intros rendered; simpl.
  - split; [by left|]. intros [?|(? & ?%elem_of_nil & _)]; done.
  - rewrite IH, elem_of_union, elem_of_singleton. split.
    + intros [[? | ->]|(y & Hy & <-)].
      * by left.
      * right. exists x. split; [left|done].
      * right. exists y. split; [by right|done].
    + intros [?|(y & Hy & <-)]; [by left; left|].
      apply elem_of_cons in Hy as [->|Hy]; [by left; right|].
      right. by exists y.
Qed.

(** The windows a layer's end collects, by membership. *)
Lemma collect_windows_spec (fuel : nat) (is_top : bool) (id : Z) w c ws :
  collect fuel is_top id w c = Ok ws →
  ∀ x, x ∈ ws ↔
       (∃ root, root ∈ Windows c
                ∧ (is_top = true ∨ Name root ∈ windows (ui w) !!! id)
                ∧ (Name root ∉ rendered_windows (ui w))
                ∧ reaches root x)
       ∧ Name x ∉ rendered_windows (ui w).
Proof.
  unfold collect_windows. intros Hc.
  apply append_children_spec in Hc as (added & -> & Hadded).
  intros x. rewrite app_nil_l, Hadded. clear Hadded.
  rewrite build_windows_filter, app_nil_l. split.
  - intros [(root & Hroot & Hr) Hi]. split; [|done].
    apply list_elem_of_filter in Hroot as [[Hq Hni] Hin]. by exists root.
  - intros [(root & Hin & Hq & Hni & Hr) Hi]. split; [|done].
    exists root. split; [|done]. by apply list_elem_of_filter.
Qed.

Lemma collect_windows_total (fuel : nat) (is_top : bool) (id : Z) w c :
  (∀ root, root ∈ Windows c → within fuel root) →
  ∃ ws, collect fuel is_top id w c = Ok ws.
Proof.
  intros Hn. unfold collect_windows. apply append_children_total.
  intros root Hroot. apply Hn.
  rewrite build_windows_filter, app_nil_l in Hroot.
  by apply list_elem_of_filter in Hroot as [_ ?].
Qed.
(** X18. When no window of the display list has child lists deeper than the
    bound, the end of a layer collects a list of windows, and a window is in
    it exactly when it is not yet rendered and is reached, through child
    lists, from a window of the display list that is not yet rendered and is
    claimed under the layer's token (any window, for the top layer). *)
Theorem layer_end_collects_unrendered_descendants
    (fuel : nat) (is_top : bool) (id : Z) w c :
  (∀ root, root ∈ Windows c → nested_within ChildWindows fuel root) →
  ∃ ws,
    collect_windows (interface_key := interface_key) Name ChildWindows
                    fuel is_top id w c = Ok ws
    ∧ ∀ x, x ∈ ws ↔
           (∃ root, root ∈ Windows c
                    ∧ (is_top = true ∨ Name root ∈ windows (ui w) !!! id)
                    ∧ (Name root ∉ rendered_windows (ui w))
                    ∧ descends ChildWindows root x)
           ∧ Name x ∉ rendered_windows (ui w).
Proof.
  intros Hn. destruct (collect_windows_total fuel is_top id w c Hn) as [ws Hws].
  exists ws. split; [done|]. by eapply collect_windows_spec.
Qed.

Lemma on_render_end_inv (fuel : nat) (is_top : bool) (id : Z) w c w1 c1 :
  on_render_end Name ChildWindows SortWindows fuel is_top id w c = Ok (w1, c1) →
  ∃ ws, collect fuel is_top id w c = Ok ws
        ∧ rendered_windows (ui w1)
          = mark_rendered Name (rendered_windows (ui w)) ws
        ∧ windows (ui w1) !!! id = windows (ui w) !!! id
        ∧ render_stack (ui w1) = render_stack (ui w) - 1
        ∧ GImGui w1 = (if is_top then last_context (ui w) else GImGui w)
        ∧ last_context (ui w1) = last_context (ui w)
        ∧ c1 = reconcile SortWindows ws c.
Proof.
  unfold on_render_end.
  destruct (collect fuel is_top id w c) as [ws|e]; [|done].
  cbn [res_bind]. intros [= <- <-]. exists ws. split; [done|].
  destruct is_top; cbn; rewrite ?lookup_total_insert_eq; done.
Qed.

Lemma reconcile_members (ws : list window) c x :
  (∀ l, SortWindows l ≡ₚ l) →
  x ∈ Windows (reconcile SortWindows ws c) ↔ x ∈ Windows c.
Proof.
  intros Hsort. unfold reconcile. rewrite rearrange_windows, pull_filter.
  set (sorted := SortWindows (filter (fun win => win ∈ ws) (Windows c))).
  assert (Hs : ∀ y, y ∈ sorted → y ∈ Windows c).
  { intros y Hy. unfold sorted in Hy. rewrite (Hsort _) in Hy.
    by apply list_elem_of_filter in Hy as [_ ?]. }
  rewrite elem_of_app, list_elem_of_filter. split.
  - intros [[_ ?]|?]; [done|by apply Hs].
  - intros Hx. destruct (decide (x ∈ sorted)); [by right|by left].
Qed.

End RenderPassFacts.

(** ** Feeding keys and the layers of a pass *)

Section PassFacts.
Context `{Countable interface_key} `{Countable window}.
Variables CURSOR_LEFT CURSOR_RIGHT CURSOR_UP CURSOR_DOWN : interface_key.
Variable charToKey : ascii -> interface_key.
Variable Name : window -> string.
Variable ChildWindows : window -> list window.
Variable SortWindows : list window -> list window.

Local Abbreviation state := (@ui_state interface_key _ _).
Local Abbreviation process := (@world interface_key _ _).
Local Abbreviation cleanup :=
  (cleanup_keys CURSOR_LEFT CURSOR_RIGHT CURSOR_UP CURSOR_DOWN charToKey).
Local Abbreviation next_frame :=
  (ui_new_frame CURSOR_LEFT CURSOR_RIGHT CURSOR_UP CURSOR_DOWN charToKey).
Local Abbreviation render_start :=
  (on_render_start CURSOR_LEFT CURSOR_RIGHT CURSOR_UP CURSOR_DOWN charToKey).
Local Abbreviation render_end :=
  (on_render_end (interface_key := interface_key) Name ChildWindows SortWindows).

Implicit Types (st : state) (w : process) (ks : gset interface_key)
  (en : option enabler).

Lemma cleanup_of_no_keys (d : gmap interface_key Z) : (cleanup ∅ d).1 = ∅.
Proof.
  apply set_eq. intros x. split; [|by intros ?%not_elem_of_empty].
  apply cleanup_keys_subset.
Qed.

(** X20. Keys fed by several [feed] calls before a frame are merged with the
    keys still pending and go through the cleanup together on the next
    [new_frame], which empties the pending set; the mouse buttons of the
    frame are those of the last [feed] alone; a frame begun right after,
    with nothing fed, has no key and no button down. *)
Theorem fed_keys_reach_one_frame st en1 ks1 en2 ks2 :
  let st2 := feed en2 ks2 (feed en1 ks1 st) in
  let r := ui_new_frame CURSOR_LEFT CURSOR_RIGHT CURSOR_UP CURSOR_DOWN charToKey
                        st2 in
  let r' := ui_new_frame CURSOR_LEFT CURSOR_RIGHT CURSOR_UP CURSOR_DOWN
                         charToKey r.2 in
  unprocessed_keys st2 = unprocessed_keys st ∪ ks1 ∪ ks2
  ∧ KeysDown r.1
    = (cleanup_keys CURSOR_LEFT CURSOR_RIGHT CURSOR_UP CURSOR_DOWN charToKey
                    (unprocessed_keys st ∪ ks1 ∪ ks2) (danger_key_frames st)).1
  ∧ (MouseDown0 r.1, MouseDown1 r.1)
    = match en2 with
      | Some e => (mouse_lbut e || mouse_lbut_down e,
                   mouse_rbut e || mouse_rbut_down e)
      | None => (false, false)
      end
  ∧ unprocessed_keys r.2 = ∅
  ∧ pressed_mouse_keys r.2 = (false, false)
  ∧ KeysDown r'.1 = ∅ ∧ MouseDown0 r'.1 = false ∧ MouseDown1 r'.1 = false.
Proof.
  intros st2 r r'. subst st2 r r'.
  repeat split; try (by destruct en2).
  unfold ui_new_frame, new_frame. cbn. apply cleanup_of_no_keys.
Qed.

Lemma skip_feed_spec (suppressed : gmap Z (gset interface_key)) ks :
  skip_feed suppressed ks = true ↔
    ∃ (n : Z) s key, suppressed !! n = Some s ∧ key ∈ s ∧ key ∈ ks.
Proof.
  unfold skip_feed.
  apply (map_fold_weak_ind
           (fun (b : bool) (m : gmap Z (gset interface_key)) =>
              b = true ↔ ∃ (n : Z) s key, m !! n = Some s ∧ key ∈ s ∧ key ∈ ks)).
  - split; [done|]. intros (n & s & key & Hn & _). by rewrite lookup_empty in Hn.
  - intros i s m b Hi IH. rewrite orb_true_iff, IH, existsb_exists. split.
    + intros [(n & s' & key & Hn & Hk)|(key & Hin & Hk)].
      * exists n, s', key. split; [|done].
        apply lookup_insert_Some. right. split; [congruence|done].
      * exists i, s, key. split; [apply lookup_insert_eq|].
        apply list_elem_of_In, elem_of_elements in Hin.
        by apply bool_decide_eq_true in Hk.
    + intros (n & s' & key & Hn & Hs & Hk).
      apply lookup_insert_Some in Hn as [[<- <-]|[_ Hn]].
      * right. exists key. split; [|by apply bool_decide_eq_true].
        by apply list_elem_of_In, elem_of_elements.
      * left. by exists n, s', key.
Qed.

(** X21. [on_feed_end] lets the keys go up exactly when it is given a key
    set, [feed_upwards] was called, no suppression is pending and no key
    declared suppressed at any layer is among the keys. Whatever it
    returns, it makes the saved context current again and keeps the keys
    declared suppressed. *)
Theorem on_feed_end_result (keys : option (gset interface_key)) w :
  ((on_feed_end keys w).1 = true ↔
     ∃ ks, keys = Some ks
           ∧ should_pass_keyboard_up (ui w) = true
           ∧ suppress_next_keyboard_passthrough (ui w) = false
           ∧ ∀ (n : Z) s key,
               suppressed_keys (ui w) !! n = Some s → key ∈ s → key ∉ ks)
  ∧ GImGui (on_feed_end keys w).2 = last_context (ui w)
  ∧ suppressed_keys (ui (on_feed_end keys w).2) = suppressed_keys (ui w).
Proof.
  split; [|done]. unfold on_feed_end. cbn [fst].
  destruct keys as [ks|]; [|split; [done|by intros (? & ? & _)]].
  destruct (should_pass_keyboard_up (ui w));
    [|split; [done|by intros (? & _ & ? & _)]].
  destruct (suppress_next_keyboard_passthrough (ui w));
    [split; [done|by intros (? & _ & _ & ? & _)]|].
  cbn [andb negb]. rewrite negb_true_iff. split.
  - intros Hskip. exists ks. repeat split; try done.
    intros n s key Hn Hs Hk.
    assert (skip_feed (suppressed_keys (ui w)) ks = true) as Ht; [|congruence].
    apply skip_feed_spec. by exists n, s, key.
  - intros (ks' & [= <-] & _ & _ & Hall).
    destruct (skip_feed (suppressed_keys (ui w)) ks) eqn:Hskip; [|done].
    apply skip_feed_spec in Hskip as (n & s & key & Hn & Hs & Hk).
    exfalso. by eapply Hall.
Qed.

(** X22. [on_feed_start] makes the session's context current and, for the
    top layer with a key set, adds the keys to the pending ones; the
    [on_feed_end] that follows makes current again the context that was
    current before [on_feed_start], and neither touches the timers; the
    keys stay pending for the next frame. *)
Theorem feed_start_end_round_trip en (is_top : bool)
    (keys keys' : option (gset interface_key)) w :
  let w1 := on_feed_start en is_top keys w in
  let w2 := (on_feed_end keys' w1).2 in
  GImGui w1 = ctx (ui w)
  ∧ GImGui w2 = GImGui w
  ∧ ctx (ui w2) = ctx (ui w)
  ∧ unprocessed_keys (ui w2)
    = (if is_top then unprocessed_keys (ui w) ∪ default ∅ keys
       else unprocessed_keys (ui w))
  ∧ danger_key_frames (ui w2) = danger_key_frames (ui w)
  ∧ suppressed_keys (ui w2) = suppressed_keys (ui w).
Proof.
  intros w1 w2. subst w1 w2. destruct w as [st cur].
  unfold on_feed_start, on_feed_end.
  destruct keys as [ks|], is_top; cbn; repeat split; try done.
  symmetry. apply (right_id_L ∅ (∪)).
Qed.

Lemma declare_suppressed_key_lookup key w :
  ∃ s, suppressed_keys (ui (declare_suppressed_key key w))
         !! render_stack (ui w) = Some s
       ∧ key ∈ s.
Proof.
  eexists. split; [apply lookup_insert_eq|].
  apply elem_of_union_r. by apply elem_of_singleton.
Qed.

(** X23. A key declared suppressed at any layer stops every key set that
    holds it from going up, even after [feed_upwards], and keeps doing so
    on later feeds; after
    [on_dismiss_final_imgui_aware_viewscreen], or after the [on_render_start]
    of a top layer, the keys go up again. *)
Theorem declared_key_blocks_feed key ks (keys0 : option (gset interface_key))
    (io : ImGuiIO) w :
  key ∈ ks →
  let w1 := declare_suppressed_key key w in
  (on_feed_end (Some ks) (feed_upwards w1)).1 = false
  ∧ (on_feed_end (Some ks) (feed_upwards (on_feed_end keys0 w1).2)).1 = false
  ∧ (on_feed_end (Some ks)
       (feed_upwards (on_dismiss_final_imgui_aware_viewscreen io w1).2)).1
    = negb (suppress_next_keyboard_passthrough (ui w))
  ∧ (on_feed_end (Some ks)
       (feed_upwards
          (on_render_start CURSOR_LEFT CURSOR_RIGHT CURSOR_UP CURSOR_DOWN
                           charToKey true w1).2)).1
    = negb (suppress_next_keyboard_passthrough (ui w)).
Proof.
  intros Hk w1.
  destruct (declare_suppressed_key_lookup key w) as (s & Hs & Hin).
  assert (Hblock : ∀ w', suppressed_keys (ui w') = suppressed_keys (ui w1) →
                         (on_feed_end (Some ks) w').1 = false).
  { intros w' Hw'. unfold on_feed_end. cbn [fst].
    destruct (should_pass_keyboard_up (ui w')); [|done].
    destruct (suppress_next_keyboard_passthrough (ui w')); [done|].
    cbn [andb negb]. apply negb_false_iff, skip_feed_spec.
    exists (render_stack (ui w)), s, key. by rewrite Hw'. }
  assert (Hfree : ∀ w', suppressed_keys (ui w') = ∅ →
                        should_pass_keyboard_up (ui w') = true →
                        (on_feed_end (Some ks) w').1
                        = negb (suppress_next_keyboard_passthrough (ui w'))).
  { intros w' He Hp. unfold on_feed_end, skip_feed. cbn [fst].
    rewrite He, Hp, map_fold_empty.
    by destruct (suppress_next_keyboard_passthrough (ui w')). }
  split; [by apply Hblock|]. split; [by apply Hblock|]. split.
  - by rewrite Hfree.
  - by rewrite Hfree.
Qed.

(** X25. A window claimed with [claim_current_imgui_window] is filed under
    the depth current at the claim and under no other; when it is in the
    display list and not yet rendered, the end of the layer with that
    token collects it, also when the layer is not the top one. *)
Theorem claimed_window_is_collected (fuel : nat) (name : string) w c
    (root : window) :
  (∀ r, r ∈ Windows c → nested_within ChildWindows fuel r) →
  root ∈ Windows c → Name root = name → name ∉ rendered_windows (ui w) →
  let w1 := claim_current_imgui_window name w in
  (∀ other : Z,
     windows (ui w1) !!! other
     = if decide (other = render_stack (ui w))
       then windows (ui w) !!! other ++ [name]
       else windows (ui w) !!! other)
  ∧ ∃ ws,
      collect_windows Name ChildWindows fuel false (render_stack (ui w)) w1 c
      = Ok ws
      ∧ root ∈ ws.
Proof.
  intros Hn Hroot Hname Hnr w1. split.
  - intros other. unfold w1, claim_current_imgui_window. cbn [ui windows set_windows].
    destruct (decide (other = render_stack (ui w))) as [->|Hne].
    + by rewrite lookup_total_insert_eq.
    + by rewrite lookup_total_insert_ne.
  - destruct (collect_windows_total Name ChildWindows SortWindows fuel false
                (render_stack (ui w)) w1 c Hn) as [ws Hws].
    exists ws. split; [done|].
    apply (collect_windows_spec Name ChildWindows SortWindows _ _ _ _ _ _ Hws).
    split; [|by rewrite Hname].
    exists root. split; [done|]. split; [|split].
    + right. unfold w1, claim_current_imgui_window. cbn [ui windows set_windows].
      rewrite lookup_total_insert_eq, Hname. apply elem_of_app. right.
      by apply list_elem_of_singleton.
    + by rewrite Hname.
    + apply descends_here.
Qed.
End PassFacts.

(** ** The properties above on concrete inputs *)

(** Digit 4 and the left cursor key in one frame, on empty timers. *)
Lemma cleanup_keys_by_direction_witness :
  let r := cleanup_keys 1 2 3 4 key_of_char {[key_of_char "4"; 1]} ∅ in
  (1 ∉ r.1) ∧ key_of_char "4" ∈ r.1 ∧ r.2 !! key_of_char "4" = Some 0.
Proof.
  assert (Hnd : NoDup [key_of_char "2"; key_of_char "4"; key_of_char "6";
                       key_of_char "8"; 1; 2; 3; 4]).
  { apply (bool_decide_unpack _). vm_compute. exact I. }
  assert (Hin : (key_of_char "4", 1)
                ∈ [(key_of_char "4", 1); (key_of_char "6", 2);
                   (key_of_char "8", 3); (key_of_char "2", 4)]).
  { apply (bool_decide_unpack _). vm_compute. exact I. }
  assert (Hk : key_of_char "4" ∈ ({[key_of_char "4"; 1]} : gset Z)).
  { apply (bool_decide_unpack _). vm_compute. exact I. }
  destruct (cleanup_keys_by_direction 1 2 3 4 key_of_char Hnd
              {[key_of_char "4"; 1]} ∅ (key_of_char "4") 1 Hin)
    as (Hck & Hd & Hdk).
  cbv zeta. split; [|split].
  - intros Hc. apply Hck in Hc as (_ & Hn & _). exact (Hn Hk).
  - apply Hdk. exact Hk.
  - rewrite Hd. rewrite decide_True by exact Hk. reflexivity.
Defined.


(** The two maps visited in the reverse of their listing. *)
Lemma cleanup_keys_order_irrelevant_witness :
  cleanup_keys_in_order 1 2 3 4 key_of_char
    (reverse (map_to_list (to_kill_if_seen 1 2 3 4 key_of_char)))
    (fun m => reverse (map_to_list m))
    {[key_of_char "4"; 1]} ∅
  = cleanup_keys 1 2 3 4 key_of_char {[key_of_char "4"; 1]} ∅.
Proof.
  assert (Hnd : NoDup [key_of_char "2"; key_of_char "4"; key_of_char "6";
                       key_of_char "8"; 1; 2; 3; 4]).
  { apply (bool_decide_unpack _). vm_compute. exact I. }
  apply (cleanup_keys_order_irrelevant 1 2 3 4 key_of_char Hnd).
  - apply reverse_Permutation.
  - intros m. apply reverse_Permutation.
Defined.


(** The first triangle of the quad of [distinct_uv_quad] with no second
    triangle after it. *)
Lemma unpaired_glyph_witness :
  walk colour_in_x utf_identity 2
       (one_list full_clip lone_triangle_idx distinct_uv_vtx)
       (whole_buffer full_clip lone_triangle_idx) full_clip 0
       (walk_start blank_screen)
  = Fault OutOfRange.
Proof.
  apply (unpaired_glyph_triangle_faults colour_in_x utf_identity 1
           (one_list full_clip lone_triangle_idx distinct_uv_vtx)
           (whole_buffer full_clip lone_triangle_idx) full_clip 0
           (walk_start blank_screen)
           (vert 2 4 0 0 7 ["a"%char; "000"%char])
           (vert 3 4 1 0 7 ["a"%char; "000"%char])
           (vert 3 5 1 1 7 ["a"%char; "000"%char])).
  - vm_compute. lia.
  - vm_compute. reflexivity.
  - vm_compute. reflexivity.
  - vm_compute. lia.
Defined.

(** The two fills of [shared_uv_pair] under the whole display and under
    the clip rectangle [0,2) x [0,2). *)
Lemma fills_ignore_clip_witness :
  walk colour_in_x utf_identity 6
       (one_list full_clip shared_uv_idx shared_uv_vtx)
       (whole_buffer full_clip shared_uv_idx) full_clip 0
       (walk_start blank_screen)
  = walk colour_in_x utf_identity 6
         (one_list full_clip shared_uv_idx shared_uv_vtx)
         (whole_buffer full_clip shared_uv_idx) small_clip 0
         (walk_start blank_screen).
Proof.
  apply (fills_ignore_clip_rectangle colour_in_x utf_identity 6
           (one_list full_clip shared_uv_idx shared_uv_vtx)
           (whole_buffer full_clip shared_uv_idx) full_clip small_clip 0
           (walk_start blank_screen) (mkVec2 (1 # 2) (1 # 2))).
  repeat (apply Forall_cons; split; [split; reflexivity|]). apply Forall_nil_2.
Defined.


(** A library sort that reverses its argument, on [two_windows] with the
    window [main] collected. *)
Lemma reconcile_keeps_unclaimed_order_witness :
  Windows (reconcile reverse ["main"%string] two_windows) ≡ₚ Windows two_windows
  ∧ filter (fun win => win ∉ ["main"%string])
           (Windows (reconcile reverse ["main"%string] two_windows))
    = filter (fun win => win ∉ ["main"%string]) (Windows two_windows).
Proof.
  apply (reconcile_keeps_unclaimed_order reverse ["main"%string] two_windows).
  - intros l. apply reverse_Permutation.
  - apply (bool_decide_unpack _). vm_compute. exact I.
Defined.

(** The end of the top layer on [two_windows]: the child of [main] is
    collected with it. *)
Lemma layer_end_collects_witness :
  ∃ ws,
    collect_windows name_of children_of 2 true 1 fresh_process two_windows = Ok ws
    ∧ "child"%string ∈ ws.
Proof.
  assert (Hleaf : ∀ n win, win ≠ "main"%string →
                           nested_within children_of (S n) win).
  { intros n win Hne. apply nested_step. intros child Hc.
    unfold children_of in Hc. rewrite decide_False in Hc by exact Hne.
    apply elem_of_nil in Hc. destruct Hc. }
  assert (Hn : ∀ root, root ∈ Windows two_windows →
                       nested_within children_of 2 root).
  { intros root _. apply nested_step. intros child Hc.
    unfold children_of in Hc. destruct (decide (root = "main"%string)).
    - apply list_elem_of_singleton in Hc as ->. apply Hleaf. discriminate.
    - apply elem_of_nil in Hc. destruct Hc. }
  destruct (layer_end_collects_unrendered_descendants name_of children_of
              reverse 2 true 1 fresh_process two_windows Hn)
    as (ws & Hws & Hspec).
  exists ws. split; [exact Hws|]. apply Hspec. split.
  - exists "main"%string. split; [apply list_elem_of_here|].
    split; [by left|]. split; [apply not_elem_of_empty|].
    apply (descends_child children_of "main"%string "child"%string).
    + apply list_elem_of_here.
    + apply descends_here.
  - apply not_elem_of_empty.
Defined.


(** Key 7 declared suppressed on a fresh session. *)
Lemma declared_key_blocks_feed_witness :
  (on_feed_end (Some {[7]})
     (feed_upwards (declare_suppressed_key 7 fresh_process))).1 = false.
Proof.
  assert (Hk : 7 ∈ ({[7]} : gset Z)).
  { apply (bool_decide_unpack _). vm_compute. exact I. }
  destruct (declared_key_blocks_feed 1 2 3 4 key_of_char 7 {[7]} None
              (mkIO ∅ false false) fresh_process Hk) as (Hblock & _).
  exact Hblock.
Defined.

(** The window [main] of [two_windows], claimed on a fresh session. *)
Lemma claimed_window_witness :
  ∃ ws,
    collect_windows name_of children_of 2 false 0
      (claim_current_imgui_window "main" fresh_process) two_windows = Ok ws
    ∧ "main"%string ∈ ws.
Proof.
  assert (Hleaf : ∀ n win, win ≠ "main"%string →
                           nested_within children_of (S n) win).
  { intros n win Hne. apply nested_step. intros child Hc.
    unfold children_of in Hc. rewrite decide_False in Hc by exact Hne.
    apply elem_of_nil in Hc. destruct Hc. }
  assert (Hn : ∀ root, root ∈ Windows two_windows →
                       nested_within children_of 2 root).
  { intros root _. apply nested_step. intros child Hc.
    unfold children_of in Hc. destruct (decide (root = "main"%string)).
    - apply list_elem_of_singleton in Hc as ->. apply Hleaf. discriminate.
    - apply elem_of_nil in Hc. destruct Hc. }
  destruct (claimed_window_is_collected name_of children_of reverse 2 "main"
              fresh_process two_windows "main"%string Hn)
    as (_ & ws & Hws & Hin).
  - apply list_elem_of_here.
  - reflexivity.
  - apply not_elem_of_empty.
  - exists ws. split; [exact Hws|exact Hin].
Defined.
